(** * honeytail: the event pipeline of [leash.go]

    A shallow embedding of the functions of [leash.go] (package [main]):
    parser selection, the mutator chain (drop / scrub / add), the sender
    loop and the response handler, together with the library functions
    they call ([strings.SplitN], [crypto/sha256], [fmt.Sprintf]) as far
    as the code uses them. *)

From Stdlib Require Import ZArith List Ascii String Lia.
From stdpp Require Import gmap strings list fin_maps pretty.

Local Open Scope Z_scope.

(** ** Go's [crypto/sha256] (FIPS 180-4), on 32-bit words held in [Z] *)

Module SHA256.

Definition mask32 : Z := 0xffffffff.

(** Wrap-around of [uint32] arithmetic. *)
Definition w32 (x : Z) : Z := Z.land x mask32.

Definition add32 (x y : Z) : Z := w32 (x + y).

Definition rotr (n x : Z) : Z :=
  w32 (Z.lor (Z.shiftr x n) (Z.shiftl x (32 - n))).

Definition shr (n x : Z) : Z := Z.shiftr x n.

Definition Ch (x y z : Z) : Z :=
  Z.lxor (Z.land x y) (Z.land (Z.lxor x mask32) z).

Definition Maj (x y z : Z) : Z :=
  Z.lxor (Z.lxor (Z.land x y) (Z.land x z)) (Z.land y z).

Definition bigSigma0 (x : Z) : Z := Z.lxor (Z.lxor (rotr 2 x) (rotr 13 x)) (rotr 22 x).
Definition bigSigma1 (x : Z) : Z := Z.lxor (Z.lxor (rotr 6 x) (rotr 11 x)) (rotr 25 x).
Definition smallSigma0 (x : Z) : Z := Z.lxor (Z.lxor (rotr 7 x) (rotr 18 x)) (shr 3 x).
Definition smallSigma1 (x : Z) : Z := Z.lxor (Z.lxor (rotr 17 x) (rotr 19 x)) (shr 10 x).

(** The constants are the ones of the standard: the first 32 bits of
    the fractional parts of the cube roots (round constants) and of the
    square roots (initial hash value) of the first primes. *)
Definition is_prime (n : nat) : bool :=
  forallb (fun d => negb (Nat.eqb (Nat.modulo n d) 0)) (seq 2 (n - 2)).

Definition primes (bound : nat) : list Z :=
  map Z.of_nat (filter is_prime (seq 2 bound)).

(** The integer cube root of [n], for [n < 2 ^ (3 * bits)], found bit by
    bit from the top. *)
Fixpoint cube_root (bits : nat) (n r : Z) : Z :=
  match bits with
  | O => r
  | S b =>
      let r' := r + 2 ^ Z.of_nat b in
      cube_root b n (if r' * r' * r' <=? n then r' else r)
  end.

Definition K : list Z :=
  Eval vm_compute in
    map (fun p => w32 (cube_root 36 (p * 2 ^ 96) 0)) (firstn 64 (primes 310)).

Definition init : list Z :=
  Eval vm_compute in
    map (fun p => w32 (Z.sqrt (p * 2 ^ 64))) (firstn 8 (primes 310)).

(** The message, padded to a multiple of 64 bytes: a [0x80] byte, zero
    bytes, and the length in bits as a big-endian [uint64]. *)
Definition be_bytes (n : nat) (x : Z) : list Z :=
  map (fun i => Z.land (Z.shiftr x (8 * Z.of_nat i)) 0xff) (rev (seq 0 n)).

Definition pad (msg : list Z) : list Z :=
  let len := Z.of_nat (length msg) in
  let zeros := Z.to_nat ((55 - len) mod 64) in
  msg ++ [0x80] ++ repeat 0 zeros ++ be_bytes 8 (Z.land (8 * len) 0xffffffffffffffff).

Definition be_word (bs : list Z) : Z :=
  fold_left (fun acc b => Z.lor (Z.shiftl acc 8) b) bs 0.

Fixpoint words (n : nat) (bs : list Z) : list Z :=
  match n with
  | O => []
  | S n' => be_word (firstn 4 bs) :: words n' (skipn 4 bs)
  end.

(** The message schedule; [recent] holds the words computed so far, the
    latest first. *)
Fixpoint schedule (n : nat) (recent : list Z) : list Z :=
  match n with
  | O => rev recent
  | S n' =>
      let w := add32 (add32 (add32 (smallSigma1 (nth 1 recent 0)) (nth 6 recent 0))
                            (smallSigma0 (nth 14 recent 0)))
                     (nth 15 recent 0) in
      schedule n' (w :: recent)
  end.

Record regs := Regs { ra : Z; rb : Z; rc : Z; rd : Z; re : Z; rf : Z; rg : Z; rh : Z }.

Definition round (r : regs) (kw : Z * Z) : regs :=
  let t1 := add32 (add32 (add32 (add32 (rh r) (bigSigma1 (re r))) (Ch (re r) (rf r) (rg r)))
                         (fst kw)) (snd kw) in
  let t2 := add32 (bigSigma0 (ra r)) (Maj (ra r) (rb r) (rc r)) in
  Regs (add32 t1 t2) (ra r) (rb r) (rc r) (add32 (rd r) t1) (re r) (rf r) (rg r).

Definition regs_of (h : list Z) : regs :=
  Regs (nth 0 h 0) (nth 1 h 0) (nth 2 h 0) (nth 3 h 0)
       (nth 4 h 0) (nth 5 h 0) (nth 6 h 0) (nth 7 h 0).

Definition list_of (r : regs) : list Z :=
  [ra r; rb r; rc r; rd r; re r; rf r; rg r; rh r].

Definition block (h : list Z) (blk : list Z) : list Z :=
  let w := schedule 48 (rev (words 16 blk)) in
  let r := fold_left round (combine K w) (regs_of h) in
  map (fun p => add32 (fst p) (snd p)) (combine h (list_of r)).

Fixpoint blocks (n : nat) (h : list Z) (bs : list Z) : list Z :=
  match n with
  | O => h
  | S n' => blocks n' (block h (firstn 64 bs)) (skipn 64 bs)
  end.

(** [sha256.Sum256]: the 32 bytes of the digest. *)
Definition Sum256 (msg : list Z) : list Z :=
  let p := pad msg in
  flat_map (be_bytes 4) (blocks (Nat.div (length p) 64) init p).

End SHA256.

(** ** Go strings as byte sequences *)

Definition bytes_of_string (s : string) : list Z :=
  map (fun c => Z.of_N (N_of_ascii c)) (list_ascii_of_string s).

Definition hex_digit (d : Z) : ascii :=
  if d <? 10 then ascii_of_N (Z.to_N (48 + d)) else ascii_of_N (Z.to_N (87 + d)).

(** [fmt.Sprintf("%x", b)] for a byte array: two lowercase hexadecimal
    digits per byte. *)
Fixpoint Sprintf_x (bs : list Z) : string :=
  match bs with
  | [] => EmptyString
  | b :: bs' => String (hex_digit (Z.shiftr b 4)) (String (hex_digit (Z.land b 15)) (Sprintf_x bs'))
  end.

(** ** [strings.SplitN(s, "=", 2)] *)

(** [strings.Index] followed by the two slices [s[:m]] and [s[m+1:]],
    for a one-byte separator; [None] when the separator does not occur. *)
Fixpoint cut (sep : ascii) (s : string) : option (string * string) :=
  match s with
  | EmptyString => None
  | String c s' =>
      if Ascii.eqb c sep then Some (EmptyString, s')
      else match cut sep s' with
           | Some (before, after) => Some (String c before, after)
           | None => None
           end
  end.

(** Whether the byte [sep] occurs in [s] ([strings.IndexByte(s, sep) >= 0]). *)
Fixpoint contains_byte (sep : ascii) (s : string) : bool :=
  match s with
  | EmptyString => false
  | String c s' => Ascii.eqb c sep || contains_byte sep s'
  end.

(** [strings.SplitN(s, sep, 2)]: at most two pieces, the second one
    being the unsplit remainder. *)
Definition SplitN2 (s : string) (sep : ascii) : list string :=
  match cut sep s with
  | Some (before, after) => [before; after]
  | None => [s]
  end.

(** ** Outcomes *)

(** [logrus.Fatal] logs and exits the process: a function that reaches
    it returns nothing. *)
Inductive startup (A : Type) : Type :=
| Fatal (msg : string)
| Proceed (a : A).
Arguments Fatal {A} msg.
Arguments Proceed {A} a.

(** A run-time panic (here: a failed one-value type assertion). *)
Inductive result (A : Type) : Type :=
| Panic
| Ok (a : A).
Arguments Panic {A}.
Arguments Ok {A} a.

#[global] Instance result_bind : MBind result :=
  fun A B k r => match r with Panic => Panic | Ok a => k a end.

#[global] Instance startup_bind : MBind startup :=
  fun A B k r => match r with Fatal msg => Fatal msg | Proceed a => k a end.

(** ** Options *)

(** The fields of [GlobalOptions] that [leash.go] reads.  [NumSenders]
    is a [uint] (it is assigned to [libhoney.Config.MaxConcurrentBatches]),
    [StatusInterval] a [uint] as well. *)
Record RequiredOptions := {
  ParserName : string;
  WriteKey : string;
  Dataset : string;
  LogFiles : list string
}.

Record GlobalOptions := {
  Reqs : RequiredOptions;
  APIHost : string;
  SampleRate : Z;
  NumSenders : Z;
  BackOff : bool;
  StatusInterval : Z;
  DropFields : list string;
  ScrubFields : list string;
  AddFields : list string
}.

(** ** Parser selection *)

(** The four implementations of [parsers.Parser] that [leash.go] imports. *)
Inductive Parser := NginxParser | HtjsonParser | MongodbParser | MysqlParser.

(** The option group whose address is handed to [parser.Init]. *)
Inductive ParserOptions := OptNginx | OptJSON | OptMongo | OptMySQL.

(** [parser.(parsers.Parser)] in its two-value form: a nil interface
    yields [(nil, false)] and no panic. *)
Definition assertParser (p : option Parser) : option Parser * bool :=
  match p with
  | Some q => (Some q, true)
  | None => (None, false)
  end.

Definition getParserAndOptions (options : GlobalOptions)
  : option Parser * option ParserOptions :=
  let name := ParserName (Reqs options) in
  let '(parser, opts) :=
    if String.eqb name "nginx" then (Some NginxParser, Some OptNginx)
    else if String.eqb name "json" then (Some HtjsonParser, Some OptJSON)
    else if String.eqb name "mongo" || String.eqb name "mongodb"
      then (Some MongodbParser, Some OptMongo)
    else if String.eqb name "mysql" then (Some MysqlParser, Some OptMySQL)
    else (None, None) in
  (fst (assertParser parser), opts).

(** [run], lines 55-59: the parser is fetched and a nil parser is fatal. *)
Definition run_getParser (options : GlobalOptions) : startup (Parser * option ParserOptions) :=
  match getParserAndOptions options with
  | (None, _) => Fatal "Parser not found. Use --list to show valid parsers"
  | (Some parser, opts) => Proceed (parser, opts)
  end.

(** [uint] on the 64-bit targets the project builds for. *)
Definition wrap_uint (x : Z) : Z := x mod 2 ^ 64.

(** [int64] wrap-around (two's complement). *)
Definition wrap_int64 (x : Z) : Z := (x + 2 ^ 63) mod 2 ^ 64 - 2 ^ 63.

(** [run], lines 73 and 75: the capacity of [toBeResent] and of
    [delaySending], [2*options.NumSenders] computed in [uint]. *)
Definition retry_capacity (options : GlobalOptions) : Z :=
  wrap_uint (2 * NumSenders options).

Section Pipeline.

(** ** Events *)

(** An event's data is a [map[string]interface{}].  Strings, integers
    and booleans are values of their own; floats, nested maps and whatever
    else an [interface{}] may hold are values of the type [other], of
    which the code uses nothing but the [%v] rendering that [fmt] gives
    them, [fmt_other]. *)
Context {other : Type} (fmt_other : other -> string).

Inductive value : Type :=
| VString (s : string)
| VInt (i : Z)
| VBool (b : bool)
| VOther (o : other).

(** [fmt.Sprintf("%v", val)]. *)
Definition Sprintf_v (val : value) : string :=
  match val with
  | VString s => s
  | VInt i => pretty i
  | VBool true => "true"
  | VBool false => "false"
  | VOther o => fmt_other o
  end.

(** [event.Event]; the timestamp is an instant, kept as a number, and
    [Data] is an allocated map, as in the events of the parser tests. *)
Record Event := {
  Timestamp : Z;
  Data : gmap string value
}.

(** ** The mutators *)

(** A channel of events is the [list Event] of the events that pass
    through it, in order, before it is closed; a stage is the function
    from the events it reads to the events it writes. *)

(** The loop body of the goroutine of [dropEventField]:
    [delete(ev.Data, field)]. *)
Definition drop_body (field : string) (ev : Event) : Event :=
  {| Timestamp := Timestamp ev; Data := delete field (Data ev) |}.

Definition dropEventField (field : string) (toBeSent : list Event) : list Event :=
  drop_body field <$> toBeSent.

(** The loop body of the goroutine of [scrubEventField]. *)
Definition scrub_body (field : string) (ev : Event) : Event :=
  match Data ev !! field with
  | Some val =>
      let newVal := SHA256.Sum256 (bytes_of_string (Sprintf_v val)) in
      {| Timestamp := Timestamp ev;
         Data := <[field := VString (Sprintf_x newVal)]> (Data ev) |}
  | None => ev
  end.

Definition scrubEventField (field : string) (toBeSent : list Event) : list Event :=
  scrub_body field <$> toBeSent.

(** The loop body of the goroutine of [addEventField]: [ev.Data[key] = val]. *)
Definition add_body (key val : string) (ev : Event) : Event :=
  {| Timestamp := Timestamp ev; Data := <[key := VString val]> (Data ev) |}.

Definition addEventField (field : string) (toBeSent : list Event) : startup (list Event) :=
  match SplitN2 field "=" with
  | [key; val] => Proceed (add_body key val <$> toBeSent)
  | _ => Fatal "unable to separate provided field into a key=val pair"
  end.

Definition modifyEventContents (toBeSent : list Event) (options : GlobalOptions) : startup (list Event) :=
  let toBeSent :=
    fold_left (fun ch field => dropEventField field ch) (DropFields options) toBeSent in
  let toBeSent :=
    fold_left (fun ch field => scrubEventField field ch) (ScrubFields options) toBeSent in
  fold_left (fun ch field => ch ≫= addEventField field) (AddFields options) (Proceed toBeSent).

(** ** The transmission client's interface *)

(** The opaque [Metadata interface{}] slot of a libhoney event and of the
    response to it. *)
Inductive iface : Type :=
| INil
| IEvent (ev : Event)
| IOther (o : other).

Record LibhoneyEvent := {
  lhMetadata : iface;
  lhTimestamp : Z;
  lhFields : gmap string value
}.

Record Response := {
  StatusCode : Z;
  Body : string;
  Duration : Z;
  Err : option string;
  Metadata : iface
}.

(** [sendEvent]: the libhoney event that is handed to [Send]; the errors
    of [Add] and [Send] are only logged. *)
Definition sendEvent (ev : Event) : LibhoneyEvent :=
  {| lhMetadata := IEvent ev; lhTimestamp := Timestamp ev; lhFields := Data ev |}.

(** ** The response handler *)

(** The one-value type assertion [rsp.Metadata.(event.Event)]: it panics
    on a nil interface and on any other dynamic type. *)
Definition assertEvent (m : iface) : result Event :=
  match m with
  | IEvent ev => Ok ev
  | INil | IOther _ => Panic
  end.

(** A send on one of the two buffered channels that the handler writes. *)
Inductive chan_op : Type :=
| SendDelay (ms : Z)
| SendResent (ev : Event).

(** The debug record of a response: [status_code], [body], [duration]
    and [error] are read off the response. *)
Record LogFields := {
  lf_response : Response;
  lf_timestamp : Z;
  lf_retry_send : bool
}.

(** The body of the loop of [handleResponses], lines 261-277: the sends
    it performs, in order, and the record it logs ([stats.update] touches
    neither channel).  The assertion of line 273 is on the value that
    line 267 has already asserted. *)
Definition handleResponse (options : GlobalOptions) (rsp : Response)
  : result (list chan_op * LogFields) :=
  ev ← assertEvent (Metadata rsp);
  let timestamp := Timestamp ev in
  if BackOff options && ((StatusCode rsp =? 429) || (StatusCode rsp =? 500)) then
    resent ← assertEvent (Metadata rsp);
    Ok ([SendDelay 100; SendResent resent],
        {| lf_response := rsp; lf_timestamp := timestamp; lf_retry_send := true |})
  else
    Ok ([], {| lf_response := rsp; lf_timestamp := timestamp; lf_retry_send := false |}).

(** The loop over the response channel: the sends and the log records of
    the responses handled, and whether the loop ran to the close of the
    channel ([Ok tt]) or panicked. *)
Fixpoint handleResponses (responses : list Response) (options : GlobalOptions)
  : list chan_op * list LogFields * result unit :=
  match responses with
  | [] => ([], [], Ok tt)
  | rsp :: rest =>
      match handleResponse options rsp with
      | Panic => ([], [], Panic)
      | Ok (ops, lf) =>
          let '(ops', lfs, r) := handleResponses rest options in
          (ops ++ ops', lf :: lfs, r)
      end
  end.

(** ** The sender *)

(** What a non-blocking receive finds on the unbuffered [toBeSent]. *)
Inductive recv : Type :=
| Ready (ev : Event)
| Closed
| NotReady.

(** [time.Millisecond], in the nanoseconds of [time.Duration]. *)
Definition Millisecond : Z := 1000000.

Inductive action : Type :=
| Sleep (d : Z)
| Send (e : LibhoneyEvent)
| DoneSending.

Inductive control := Continue | Return.

Record Iteration := {
  it_actions : list action;
  it_delaySending : list Z;
  it_toBeResent : list Event;
  it_received : bool;
  it_control : control
}.

(** One iteration of the loop of [sendToLibhoney].  [delaySending] and
    [toBeResent] are the contents of the two buffered channels, oldest
    first, as the first and the second [select] find them, [toBeSent] is
    what the third finds.  The result lists what the iteration does, what
    it leaves in the two buffers, and whether it took the event offered
    on [toBeSent]. *)
Definition sendToLibhoney_iter (toBeSent : recv) (toBeResent : list Event)
    (delaySending : list Z) : Iteration :=
  let '(slept, delaySending) :=
    match delaySending with
    | delay :: rest => ([Sleep (wrap_int64 (delay * Millisecond))], rest)
    | [] => ([], [])
    end in
  match toBeResent with
  | ev :: rest =>
      {| it_actions := slept ++ [Send (sendEvent ev)];
         it_delaySending := delaySending; it_toBeResent := rest;
         it_received := false; it_control := Continue |}
  | [] =>
      match toBeSent with
      | Ready ev =>
          {| it_actions := slept ++ [Send (sendEvent ev)];
             it_delaySending := delaySending; it_toBeResent := [];
             it_received := true; it_control := Continue |}
      | Closed =>
          {| it_actions := slept ++ [DoneSending];
             it_delaySending := delaySending; it_toBeResent := [];
             it_received := false; it_control := Return |}
      | NotReady =>
          {| it_actions := slept ++ [Sleep (100 * Millisecond)];
             it_delaySending := delaySending; it_toBeResent := [];
             it_received := false; it_control := Continue |}
      end
  end.

(** ** The two goroutines around the retry and the delay channel *)

(** The buffers of [toBeResent] and [delaySending], and the sends that
    the handler has still to perform for the response it is handling. *)
Record Sys := {
  q_resent : list Event;
  q_delay : list Z;
  h_pending : list chan_op
}.

Definition sys_init : Sys := {| q_resent := []; q_delay := []; h_pending := [] |}.

(** A send on a buffered channel goes through when the buffer has room
    and blocks otherwise; a receive takes the oldest element.  When the
    capacity computed by [run] is 0 the channel is unbuffered, and a send
    hands its value over to a receive of the sender. *)
Inductive step (options : GlobalOptions) : Sys -> Sys -> Prop :=
| step_response s rsp ops lf :
    h_pending s = [] ->
    handleResponse options rsp = Ok (ops, lf) ->
    step options s {| q_resent := q_resent s; q_delay := q_delay s; h_pending := ops |}
| step_send_delay s ms rest :
    h_pending s = SendDelay ms :: rest ->
    Z.of_nat (length (q_delay s)) < retry_capacity options ->
    step options s {| q_resent := q_resent s; q_delay := q_delay s ++ [ms]; h_pending := rest |}
| step_send_resent s ev rest :
    h_pending s = SendResent ev :: rest ->
    Z.of_nat (length (q_resent s)) < retry_capacity options ->
    step options s {| q_resent := q_resent s ++ [ev]; q_delay := q_delay s; h_pending := rest |}
| step_recv_delay s delay rest :
    q_delay s = delay :: rest ->
    step options s {| q_resent := q_resent s; q_delay := rest; h_pending := h_pending s |}
| step_recv_resent s ev rest :
    q_resent s = ev :: rest ->
    step options s {| q_resent := rest; q_delay := q_delay s; h_pending := h_pending s |}
| step_handoff s op rest :
    h_pending s = op :: rest ->
    retry_capacity options = 0 ->
    step options s {| q_resent := q_resent s; q_delay := q_delay s; h_pending := rest |}.

Inductive reachable (options : GlobalOptions) : Sys -> Prop :=
| reach_init : reachable options sys_init
| reach_step s s' : reachable options s -> step options s s' -> reachable options s'.

End Pipeline.

(** ** The rest of [leash.go] *)

(** The digits that [%x] prints. *)
Definition is_lower_hex (c : ascii) : bool :=
  let n := N_of_ascii c in
  ((48 <=? n) && (n <=? 57) || (97 <=? n) && (n <=? 102))%N.

(** What [scrubEventField] stores for a value that renders as [s]. *)
Definition hex_sha256 (s : string) : string :=
  Sprintf_x (SHA256.Sum256 (bytes_of_string s)).

(** The shape of a SHA-256 digest in hexadecimal. *)
Definition is_hex_digest (h : string) : Prop :=
  String.length h = 64%nat ∧ forallb is_lower_hex (list_ascii_of_string h) = true.

(** The value of the last pair for [key], if there is one. *)
Definition last_value (key : string) (pairs : list (string * string)) : option string :=
  fold_left (fun acc kv => if String.eqb kv.1 key then Some kv.2 else acc) pairs None.

(** What the chain of [modifyEventContents] does to one event, for add
    specifications already split into [pairs]. *)
Definition chain_body {other : Type} (fmt_other : other -> string)
    (options : GlobalOptions) (pairs : list (string * string)) (ev : Event) : Event :=
  let dropped := fold_left (fun e field => drop_body field e) (DropFields options) ev in
  let scrubbed :=
    fold_left (fun e field => scrub_body fmt_other field e) (ScrubFields options) dropped in
  fold_left (fun e kv => add_body kv.1 kv.2 e) pairs scrubbed.

(** [handleResponses], line 270: the condition of a retry. *)
Definition retryable {other : Type} (options : GlobalOptions) (rsp : @Response other) : bool :=
  BackOff options && ((StatusCode rsp =? 429) || (StatusCode rsp =? 500)).

(** The events that a list of sends puts on [toBeResent]. *)
Definition resent_events {other : Type} (ops : list (@chan_op other)) : list Event :=
  omap (fun op => match op with SendResent ev => Some ev | SendDelay _ => None end) ops.

(** The libhoney events that a list of actions hands to [Send]. *)
Definition sent_events {other : Type} (acts : list (@action other)) : list LibhoneyEvent :=
  omap (fun act => match act with Send e => Some e | _ => None end) acts.

(** What one iteration of the sender finds: whether a receive on
    [toBeSent] would succeed (a stage is waiting to hand over an event, or
    the channel is closed), and the contents of the two buffers. *)
Record Poll {other : Type} := {
  poll_ready : bool;
  poll_resent : list (@Event other);
  poll_delay : list Z
}.
Arguments Poll other : clear implicits.

(** A poll that finds the retry queue empty and the primary queue ready. *)
Definition poll_primary {other : Type} (p : Poll other) : bool :=
  poll_ready p && match poll_resent p with [] => true | _ :: _ => false end.

(** The loop of [sendToLibhoney], lines 201-230, over the events that
    pass through [toBeSent] before it is closed and over what the
    successive iterations find.  The loop is still running ([Continue])
    when the polls are used up. *)
Fixpoint sendToLibhoney {other : Type} (polls : list (Poll other))
    (toBeSent : list (@Event other)) : list action * control :=
  match polls with
  | [] => ([], Continue)
  | p :: polls' =>
      let offered :=
        if poll_ready p
        then match toBeSent with ev :: _ => Ready ev | [] => Closed end
        else NotReady in
      let it := sendToLibhoney_iter offered (poll_resent p) (poll_delay p) in
      match it_control it with
      | Return => (it_actions it, Return)
      | Continue =>
          let '(acts, c) :=
            sendToLibhoney polls' (if it_received it then tail toBeSent else toBeSent) in
          (it_actions it ++ acts, c)
      end
  end.

(** [time.Second]. *)
Definition Second : Z := 1000 * Millisecond.

(** [logStats]: the period of the ticker, if one is made, and the number
    of calls of [stats.logAndReset] by the time the ticker has ticked
    [ticks] times.  [interval] is a [uint]; [time.NewTicker] panics on a
    duration that is not positive. *)
Definition logStats (interval : Z) (ticks : nat) : result (option Z * nat) :=
  if interval =? 0 then Ok (None, 0%nat)
  else
    let period := wrap_int64 (Second * wrap_int64 interval) in
    if period <=? 0 then Panic else Ok (Some period, ticks).



(** ** Option records and events used below *)

Definition with_ParserName (name : string) (options : GlobalOptions) : GlobalOptions :=
  {| Reqs := {| ParserName := name; WriteKey := WriteKey (Reqs options);
                Dataset := Dataset (Reqs options); LogFiles := LogFiles (Reqs options) |};
     APIHost := APIHost options; SampleRate := SampleRate options;
     NumSenders := NumSenders options; BackOff := BackOff options;
     StatusInterval := StatusInterval options; DropFields := DropFields options;
     ScrubFields := ScrubFields options; AddFields := AddFields options |}.

(** One sender, back-off on, and one field of each mutator kind. *)
Definition sample_options : GlobalOptions :=
  {| Reqs := {| ParserName := "nginx"; WriteKey := "key"; Dataset := "logs";
                LogFiles := ["/var/log/nginx/access.log"]%string |};
     APIHost := "https://api.honeycomb.io"; SampleRate := 1;
     NumSenders := 1; BackOff := true; StatusInterval := 60;
     DropFields := ["secret"]%string; ScrubFields := ["email"]%string;
     AddFields := ["note=k=v"]%string |}.

(** Events whose values are strings, integers and booleans only. *)
Definition fmt_none (o : Empty_set) : string := match o with end.

Definition sample_event : @Event Empty_set :=
  {| Timestamp := 1510013116;
     Data := <["email" := VString "a@b"]> (<["pid" := VInt 3053]> (<["secret" := VBool true]> ∅)) |}.

Definition response_to (code : Z) (m : @iface Empty_set) : Response :=
  {| StatusCode := code; Body := EmptyString; Duration := 0; Err := None; Metadata := m |}.

(** A rate-limited response to [sample_event], and a response whose
    metadata slot is empty. *)
Definition sample_retry : Response := response_to 429 (IEvent sample_event).

Definition sample_orphan : Response := response_to 200 INil.

(** Both buffers full, for one sender. *)
Definition sample_full : @Sys Empty_set :=
  {| q_resent := [sample_event; sample_event]; q_delay := [100; 100]; h_pending := [] |}.

(** The sample options with back-off switched off. *)
Definition quiet_options : GlobalOptions :=
  {| Reqs := Reqs sample_options; APIHost := APIHost sample_options;
     SampleRate := SampleRate sample_options; NumSenders := NumSenders sample_options;
     BackOff := false; StatusInterval := StatusInterval sample_options;
     DropFields := DropFields sample_options; ScrubFields := ScrubFields sample_options;
     AddFields := AddFields sample_options |}.

(** A poll that finds the primary queue ready and nothing else, and one
    that also finds a delay and a retry event. *)
Definition poll_quiet : Poll Empty_set :=
  {| poll_ready := true; poll_resent := []; poll_delay := [] |}.

Definition poll_retry : Poll Empty_set :=
  {| poll_ready := true; poll_resent := [sample_event]; poll_delay := [100] |}.

(** The names that the specification lists for [--parser_name]. *)
Definition listed_parser_names : list string :=
  ["nginx"; "json"; "mongo"; "mysql"; "postgresql"]%string.

(** The names that [getParserAndOptions] has a case for. *)
Definition selected_parser_names : list string :=
  ["nginx"; "json"; "mongo"; "mongodb"; "mysql"]%string.
Example sha256_constants :
  (length SHA256.K = 64%nat ∧ length SHA256.init = 8%nat)
  ∧ (head SHA256.K = Some 0x428a2f98 ∧ last SHA256.K = Some 0xc67178f2)
  ∧ (head SHA256.init = Some 0x6a09e667 ∧ last SHA256.init = Some 0x5be0cd19).
Proof. repeat split; reflexivity. Qed.

Example sha256_abc :
  Sprintf_x (SHA256.Sum256 (bytes_of_string "abc"))
  = "ba7816bf8f01cfea414140de5dae2223b00361a396177a9cb410ff61f20015ad"%string.
Proof. vm_compute. reflexivity. Qed.

Example sha256_empty :
  Sprintf_x (SHA256.Sum256 (bytes_of_string EmptyString))
  = "e3b0c44298fc1c149afbf4c8996fb92427ae41e4649b934ca495991b7852b855"%string.
Proof. vm_compute. reflexivity. Qed.

Example sha256_two_blocks :
  Sprintf_x (SHA256.Sum256 (repeat 97 56))
  = "b35439a4ac6f0948b6d6f9e3c6af0f5f590ce20f1bde7090ef7970686ec6738a"%string.
Proof. vm_compute. reflexivity. Qed.

(** * Properties *)

(** ** Parser selection *)

Lemma getParserAndOptions_cases (options : GlobalOptions) :
  let name := ParserName (Reqs options) in
  getParserAndOptions options =
    if decide (name = "nginx"%string) then (Some NginxParser, Some OptNginx)
    else if decide (name = "json"%string) then (Some HtjsonParser, Some OptJSON)
    else if decide (name = "mongo"%string ∨ name = "mongodb"%string)
      then (Some MongodbParser, Some OptMongo)
    else if decide (name = "mysql"%string) then (Some MysqlParser, Some OptMySQL)
    else (None, None).
Proof.
  intros name. unfold getParserAndOptions. fold name.
  destruct (String.eqb_spec name "nginx") as [->|Hn]; [reflexivity|].
  rewrite decide_False by assumption.
  destruct (String.eqb_spec name "json") as [->|Hj]; [reflexivity|].
  rewrite decide_False by assumption.
  destruct (String.eqb_spec name "mongo") as [->|Hm]; [reflexivity|].
  destruct (String.eqb_spec name "mongodb") as [->|Hd]; [reflexivity|].
  rewrite (decide_False (P := _ ∨ _)) by (intros [?|?]; contradiction).
  destruct (String.eqb_spec name "mysql") as [->|Hy]; [reflexivity|].
  rewrite decide_False by assumption. reflexivity.
Qed.

(** C4 (as the code has it): [getParserAndOptions] returns a non-nil
    parser, and [run] goes past its nil check, for each of the five names
    nginx, json, mongo, mongodb and mysql; every name other than these
    five and postgresql yields the nil parser, which is fatal in [run]. *)
Theorem parser_name_selection (options : GlobalOptions) :
  let name := ParserName (Reqs options) in
  (name ∈ selected_parser_names ->
     ∃ parser opts, getParserAndOptions options = (Some parser, Some opts)
                    ∧ run_getParser options = Proceed (parser, Some opts))
  ∧ (name ∉ selected_parser_names -> name ≠ "postgresql"%string ->
     getParserAndOptions options = (None, None)
     ∧ ∃ msg, run_getParser options = Fatal msg).
Proof.
  intros name. unfold run_getParser.
  pose proof (getParserAndOptions_cases options) as Hc. cbv zeta in Hc. fold name in Hc.
  rewrite Hc. clear Hc. unfold selected_parser_names. split.
  - intros Hin. repeat case_decide; eauto.
    exfalso. repeat (apply elem_of_cons in Hin as [Heq|Hin]; [tauto|]).
    inversion Hin.
  - intros Hout _.
    repeat case_decide; try (split; [reflexivity | eauto]);
      exfalso; apply Hout; rewrite !elem_of_cons; tauto.
Qed.

(** C4 as written does not hold: mongodb is no listed name and selects
    a parser, postgresql is a listed name and selects none. *)
Lemma parser_name_listed_values_fail :
  (("mongodb" : string) ∉ listed_parser_names)
  ∧ (run_getParser (with_ParserName "mongodb" sample_options)
     = Proceed (MongodbParser, Some OptMongo))
  ∧ (("postgresql" : string) ∈ listed_parser_names)
  ∧ (getParserAndOptions (with_ParserName "postgresql" sample_options) = (None, None))
  ∧ (run_getParser (with_ParserName "postgresql" sample_options)
     = Fatal "Parser not found. Use --list to show valid parsers").
Proof.
  unfold listed_parser_names. repeat split; try reflexivity.
  - intros Hin. repeat (apply elem_of_cons in Hin as [Heq|Hin]; [discriminate Heq|]).
    inversion Hin.
  - rewrite !elem_of_cons. tauto.
Qed.

(** C10: mongodb is an alias of mongo: on both names
    [getParserAndOptions] returns the MongoDB parser with the Mongo option
    group, and these two names are the only ones that select it. *)
Theorem mongodb_alias_of_mongo (options : GlobalOptions) :
  getParserAndOptions (with_ParserName "mongodb" options)
  = getParserAndOptions (with_ParserName "mongo" options)
  ∧ getParserAndOptions (with_ParserName "mongo" options)
    = (Some MongodbParser, Some OptMongo)
  ∧ (getParserAndOptions options = (Some MongodbParser, Some OptMongo)
     <-> ParserName (Reqs options) = "mongo"%string
         ∨ ParserName (Reqs options) = "mongodb"%string).
Proof.
  split; [reflexivity|]. split; [reflexivity|].
  pose proof (getParserAndOptions_cases options) as Hc. cbv zeta in Hc.
  rewrite Hc. clear Hc.
  repeat case_decide; split; intros Hsel;
    try discriminate Hsel; try reflexivity; try tauto;
    destruct Hsel as [Hsel|Hsel]; rewrite Hsel in *; first [discriminate | tauto].
Qed.

(** ** The mutators *)

Lemma cut_first (sep : ascii) (key val : string) :
  contains_byte sep key = false ->
  cut sep (key +:+ String sep val) = Some (key, val).
Proof.
  induction key as [|c key IH]; simpl; intros Hfree.
  - rewrite Ascii.eqb_refl. reflexivity.
  - apply orb_false_iff in Hfree as [Hc Hkey].
    rewrite Hc, (IH Hkey). reflexivity.
Qed.

Lemma cut_absent (sep : ascii) (s : string) :
  contains_byte sep s = false -> cut sep s = None.
Proof.
  induction s as [|c s IH]; simpl; intros Hfree; [reflexivity|].
  apply orb_false_iff in Hfree as [Hc Hs].
  rewrite Hc, (IH Hs). reflexivity.
Qed.

Lemma SplitN2_first (sep : ascii) (key val : string) :
  contains_byte sep key = false ->
  SplitN2 (key +:+ String sep val) sep = [key; val].
Proof. intros Hfree. unfold SplitN2. rewrite cut_first by assumption. reflexivity. Qed.

Section Mutators.

Context {other : Type} (fmt_other : other -> string).

Local Abbreviation Ev := (@Event other) (only parsing).

Implicit Types (ev : Ev) (toBeSent : list Ev).

(** A stage applies its loop body to every event, in order. *)
Lemma stage_lookup (body : Ev -> Ev) toBeSent (i : nat) ev :
  toBeSent !! i = Some ev -> (body <$> toBeSent) !! i = Some (body ev).
Proof. intros Hi. rewrite list_lookup_fmap, Hi. reflexivity. Qed.

(** A run of stages of one kind is one stage that applies the bodies in
    the order of the fields. *)
Lemma stages_fold (body : string -> Ev -> Ev) (fields : list string) toBeSent :
  fold_left (fun ch field => body field <$> ch) fields toBeSent
  = (fun ev => fold_left (fun e field => body field e) fields ev) <$> toBeSent.
Proof.
  revert toBeSent. induction fields as [|field fields IH]; intros toBeSent; simpl.
  - symmetry. apply list_fmap_id.
  - rewrite IH, <- list_fmap_compose. reflexivity.
Qed.

Lemma addEventField_split (field key val : string) toBeSent :
  SplitN2 field "=" = [key; val] ->
  addEventField field toBeSent = Proceed (add_body key val <$> toBeSent).
Proof. intros Hsplit. unfold addEventField. rewrite Hsplit. reflexivity. Qed.

Lemma add_stages_fold (fields : list string) (pairs : list (string * string)) toBeSent :
  Forall2 (fun field kv => SplitN2 field "=" = [kv.1; kv.2]) fields pairs ->
  fold_left (fun ch field => ch ≫= addEventField field) fields (Proceed toBeSent)
  = Proceed ((fun ev => fold_left (fun e kv => add_body kv.1 kv.2 e) pairs ev) <$> toBeSent).
Proof.
  intros Hsplit. revert toBeSent.
  induction Hsplit as [|field kv fields pairs Hkv _ IH]; intros toBeSent; simpl.
  - rewrite list_fmap_id. reflexivity.
  - rewrite (addEventField_split _ _ _ _ Hkv), IH, <- list_fmap_compose.
    reflexivity.
Qed.



(** C7: [addEventField] splits its specification at the first [=] only:
    for a key without [=] and any value (which may contain [=]), the
    specification key=value makes the stage set [Data[key]] of every
    event to the string value, whatever the entry was before. *)
Theorem addEventField_first_equals (key val : string) toBeSent :
  contains_byte "=" key = false ->
  SplitN2 (key +:+ "=" +:+ val) "=" = [key; val]
  ∧ ∃ out, addEventField (key +:+ "=" +:+ val) toBeSent = Proceed out
      ∧ length out = length toBeSent
      ∧ ∀ (i : nat) ev, toBeSent !! i = Some ev ->
          ∃ ev', out !! i = Some ev'
                 ∧ Timestamp ev' = Timestamp ev
                 ∧ Data ev' = <[key := VString val]> (Data ev)
                 ∧ Data ev' !! key = Some (VString val).
Proof.
  intros Hfree.
  assert (Hsplit : SplitN2 (key +:+ "=" +:+ val) "=" = [key; val])
    by (apply (SplitN2_first "=" key val Hfree)).
  split; [exact Hsplit|].
  exists (add_body key val <$> toBeSent). split; [|split].
  - apply addEventField_split, Hsplit.
  - apply length_fmap.
  - intros i ev Hi. exists (add_body key val ev).
    split; [apply stage_lookup, Hi|]. simpl.
    split; [reflexivity|]. split; [reflexivity|]. apply lookup_insert_eq.
Qed.

(** C5: the chain applies, to every event, the drop mutators first (in
    the order of [DropFields]), then the scrub mutators, then the add
    mutators, for every configuration whose add specifications split
    into pairs. *)
Theorem modifyEventContents_order toBeSent (options : GlobalOptions)
    (pairs : list (string * string)) :
  Forall2 (fun field kv => SplitN2 field "=" = [kv.1; kv.2]) (AddFields options) pairs ->
  modifyEventContents fmt_other toBeSent options
  = Proceed ((fun ev =>
       let dropped := fold_left (fun e field => drop_body field e) (DropFields options) ev in
       let scrubbed :=
         fold_left (fun e field => scrub_body fmt_other field e) (ScrubFields options) dropped in
       fold_left (fun e kv => add_body kv.1 kv.2 e) pairs scrubbed) <$> toBeSent).
Proof.
  intros Hsplit. unfold modifyEventContents, dropEventField, scrubEventField.
  rewrite (stages_fold drop_body), (stages_fold (scrub_body fmt_other)).
  rewrite (add_stages_fold _ pairs) by assumption.
  rewrite <- !list_fmap_compose. reflexivity.
Qed.

Lemma scrub_body_absent (f : string) ev :
  Data ev !! f = None -> scrub_body fmt_other f ev = ev.
Proof. intros Hf. unfold scrub_body. rewrite Hf. reflexivity. Qed.

Lemma scrub_body_present (f : string) ev (val : value) :
  Data ev !! f = Some val ->
  scrub_body fmt_other f ev
  = {| Timestamp := Timestamp ev;
       Data := <[f := VString (Sprintf_x (SHA256.Sum256
                           (bytes_of_string (Sprintf_v fmt_other val))))]> (Data ev) |}.
Proof. intros Hf. unfold scrub_body. rewrite Hf. reflexivity. Qed.

Lemma scrub_body_frame (f : string) ev :
  Timestamp (scrub_body fmt_other f ev) = Timestamp ev
  ∧ ∀ k : string, k ≠ f -> Data (scrub_body fmt_other f ev) !! k = Data ev !! k.
Proof.
  destruct (Data ev !! f) as [val|] eqn:Hf.
  - rewrite (scrub_body_present _ _ _ Hf). simpl. split; [reflexivity|].
    intros k Hk. apply lookup_insert_ne. congruence.
  - rewrite (scrub_body_absent _ _ Hf). split; reflexivity.
Qed.

(** C9: each mutator touches only its target key.  For the event at any
    position of the input of a stage: the drop and the scrub stage for
    [f] keep its timestamp and every entry whose key is not [f]; the add
    stage for a specification that splits into [key] and [val] keeps its
    timestamp and every entry whose key is not [key]; and the scrub stage
    passes an event without the key [f] on as it is. *)
Theorem mutators_frame toBeSent (i : nat) ev (f : string) :
  toBeSent !! i = Some ev ->
  (∃ ev', dropEventField f toBeSent !! i = Some ev'
          ∧ Timestamp ev' = Timestamp ev
          ∧ ∀ k : string, k ≠ f -> Data ev' !! k = Data ev !! k)
  ∧ (∃ ev', scrubEventField fmt_other f toBeSent !! i = Some ev'
            ∧ Timestamp ev' = Timestamp ev
            ∧ ∀ k : string, k ≠ f -> Data ev' !! k = Data ev !! k)
  ∧ (∀ spec key val : string, SplitN2 spec "=" = [key; val] ->
       ∃ out ev', addEventField spec toBeSent = Proceed out
                  ∧ out !! i = Some ev'
                  ∧ Timestamp ev' = Timestamp ev
                  ∧ ∀ k : string, k ≠ key -> Data ev' !! k = Data ev !! k)
  ∧ (Data ev !! f = None -> scrubEventField fmt_other f toBeSent !! i = Some ev).
Proof.
  intros Hi. repeat split.
  - exists (drop_body f ev). split; [apply stage_lookup, Hi|].
    simpl. split; [reflexivity|].
    intros k Hk. apply lookup_delete_ne. congruence.
  - exists (scrub_body fmt_other f ev). split; [apply stage_lookup, Hi|].
    apply scrub_body_frame.
  - intros spec key val Hsplit.
    exists (add_body key val <$> toBeSent), (add_body key val ev).
    split; [apply addEventField_split, Hsplit|].
    split; [apply stage_lookup, Hi|]. simpl. split; [reflexivity|].
    intros k Hk. apply lookup_insert_ne. congruence.
  - intros Hf. unfold scrubEventField.
    rewrite (stage_lookup _ _ _ _ Hi), (scrub_body_absent _ _ Hf). reflexivity.
Qed.

(** C2 (as the code has it): scrubbing twice is scrubbing once on the
    events that have no field [f], which pass unchanged; on an event
    whose field [f] renders as [s], the first stage stores the hexadecimal
    SHA-256 of [s] and the second stage stores the hexadecimal SHA-256 of
    that digest string, the timestamp and the other entries staying as
    the first stage left them. *)
Theorem scrub_twice_rehashes toBeSent (f : string) :
  let digest (s : string) := Sprintf_x (SHA256.Sum256 (bytes_of_string s)) in
  let once := scrubEventField fmt_other f toBeSent in
  let twice := scrubEventField fmt_other f once in
  (Forall (fun ev => Data ev !! f = None) toBeSent -> twice = once ∧ once = toBeSent)
  ∧ (∀ (i : nat) ev (val : value),
       toBeSent !! i = Some ev -> Data ev !! f = Some val ->
       ∃ ev1 ev2, once !! i = Some ev1 ∧ twice !! i = Some ev2
         ∧ Data ev1 !! f = Some (VString (digest (Sprintf_v fmt_other val)))
         ∧ Data ev2 !! f = Some (VString (digest (digest (Sprintf_v fmt_other val))))
         ∧ Timestamp ev2 = Timestamp ev1
         ∧ ∀ k : string, k ≠ f -> Data ev2 !! k = Data ev1 !! k).
Proof.
  intros digest once twice. split.
  - intros Habsent.
    assert (Hid : once = toBeSent).
    { subst once. unfold scrubEventField.
      induction Habsent as [|ev l Hev _ IH]; [reflexivity|].
      rewrite fmap_cons, IH, (scrub_body_absent _ _ Hev). reflexivity. }
    split; [|exact Hid]. subst twice. rewrite Hid. exact Hid.
  - intros i ev val Hi Hf.
    exists (scrub_body fmt_other f ev), (scrub_body fmt_other f (scrub_body fmt_other f ev)).
    split; [apply stage_lookup, Hi|].
    split; [apply stage_lookup, stage_lookup, Hi|].
    rewrite (scrub_body_present _ _ _ Hf).
    match goal with |- context [scrub_body _ _ ?e] => set (ev1 := e) end.
    assert (Hf1 : Data ev1 !! f = Some (VString (digest (Sprintf_v fmt_other val))))
      by (apply lookup_insert_eq).
    split; [exact Hf1|].
    rewrite (scrub_body_present _ _ _ Hf1). simpl.
    split; [apply lookup_insert_eq|]. split; [reflexivity|].
    intros k Hk. apply lookup_insert_ne. congruence.
Qed.

End Mutators.

(** *** The mutators on [sample_event] *)

Example Sprintf_v_scalars :
  map (Sprintf_v fmt_none) [VString "a@b"; VInt 3053; VInt (-7); VBool true; VBool false]
  = ["a@b"; "3053"; "-7"; "true"; "false"].
Proof. reflexivity. Qed.

(** Scenario "scrub determinism": the stored value is the lowercase
    hexadecimal SHA-256 of a@b. *)
Example scrub_email :
  Data <$> scrubEventField fmt_none "email" [sample_event]
  = [ <["email" := VString "7508d8b5018ea640b85269861a101203f0c26900555268e930025dac844b0f35"]>
        (Data sample_event) ].
Proof. vm_compute. reflexivity. Qed.

(** A second scrub stores the digest of that digest. *)
Example scrub_email_twice :
  Data <$> scrubEventField fmt_none "email" (scrubEventField fmt_none "email" [sample_event])
  = [ <["email" := VString "577a5f8bab562c88c8ae1b4269267108b6d94dbcf3eebb7f5d1a3c26ebe3feda"]>
        (Data sample_event) ].
Proof. vm_compute. reflexivity. Qed.

(** C2 as written does not hold: on [sample_event], whose email is
    a@b, the second scrub replaces the digest of the first one. *)
Lemma scrub_twice_differs :
  scrubEventField fmt_none "email" (scrubEventField fmt_none "email" [sample_event])
  ≠ scrubEventField fmt_none "email" [sample_event].
Proof.
  intros Heq.
  apply (f_equal (fun l => (l !! 0%nat) ≫= (fun ev => Data ev !! "email"))) in Heq.
  vm_compute in Heq. discriminate Heq.
Qed.

(** C7 at the specification note=k=v: the value keeps its [=]. *)
Lemma addEventField_first_equals_note :
  contains_byte "=" "note" = false
  ∧ SplitN2 ("note" +:+ "=" +:+ "k=v") "=" = ["note"; "k=v"]
  ∧ ∃ out, addEventField ("note" +:+ "=" +:+ "k=v") [sample_event] = Proceed out
      ∧ length out = length [sample_event]
      ∧ ∀ (i : nat) ev, [sample_event] !! i = Some ev ->
          ∃ ev', out !! i = Some ev'
                 ∧ Timestamp ev' = Timestamp ev
                 ∧ Data ev' = <["note" := VString "k=v"]> (Data ev)
                 ∧ Data ev' !! "note" = Some (VString "k=v").
Proof.
  split; [reflexivity|].
  apply (addEventField_first_equals "note" "k=v" [sample_event]). reflexivity.
Defined.

(** C5 on [sample_options]: drop secret, scrub email, add note=k=v. *)
Lemma modifyEventContents_order_sample :
  Forall2 (fun field kv => SplitN2 field "=" = [kv.1; kv.2])
          (AddFields sample_options) [("note", "k=v")]
  ∧ modifyEventContents fmt_none [sample_event] sample_options
    = Proceed ((fun ev =>
         let dropped :=
           fold_left (fun e field => drop_body field e) (DropFields sample_options) ev in
         let scrubbed :=
           fold_left (fun e field => scrub_body fmt_none field e)
                     (ScrubFields sample_options) dropped in
         fold_left (fun e kv => add_body kv.1 kv.2 e) [("note", "k=v")] scrubbed)
       <$> [sample_event]).
Proof.
  assert (Hsplit : Forall2 (fun field kv => SplitN2 field "=" = [kv.1; kv.2])
                     (AddFields sample_options) [("note", "k=v")]).
  { simpl. constructor; [reflexivity | constructor]. }
  split; [exact Hsplit|].
  apply (modifyEventContents_order fmt_none [sample_event] sample_options _ Hsplit).
Defined.

(** C9 on [sample_event] and the field email. *)
Lemma mutators_frame_sample :
  [sample_event] !! 0%nat = Some sample_event
  ∧ (∃ ev', dropEventField "email" [sample_event] !! 0%nat = Some ev'
          ∧ Timestamp ev' = Timestamp sample_event
          ∧ ∀ k : string, k ≠ "email" -> Data ev' !! k = Data sample_event !! k)
  ∧ (∃ ev', scrubEventField fmt_none "email" [sample_event] !! 0%nat = Some ev'
            ∧ Timestamp ev' = Timestamp sample_event
            ∧ ∀ k : string, k ≠ "email" -> Data ev' !! k = Data sample_event !! k)
  ∧ (∀ spec key val : string, SplitN2 spec "=" = [key; val] ->
       ∃ out ev', addEventField spec [sample_event] = Proceed out
                  ∧ out !! 0%nat = Some ev'
                  ∧ Timestamp ev' = Timestamp sample_event
                  ∧ ∀ k : string, k ≠ key -> Data ev' !! k = Data sample_event !! k)
  ∧ (Data sample_event !! "email" = None ->
     scrubEventField fmt_none "email" [sample_event] !! 0%nat = Some sample_event).
Proof.
  split; [reflexivity|].
  apply (mutators_frame fmt_none [sample_event] 0%nat sample_event "email"). reflexivity.
Defined.

(** ** The response handler *)

Section Transmission.

Context {other : Type}.

Local Abbreviation Ev := (@Event other) (only parsing).
Local Abbreviation Rsp := (@Response other) (only parsing).

Implicit Types (ev : Ev) (rsp : Rsp) (s : @Sys other).

(** What the loop body does on a response that carries its event. *)
Lemma handleResponse_event (options : GlobalOptions) rsp ev :
  Metadata rsp = IEvent ev ->
  handleResponse options rsp
  = if BackOff options && ((StatusCode rsp =? 429) || (StatusCode rsp =? 500))
    then Ok ([SendDelay 100; SendResent ev],
             {| lf_response := rsp; lf_timestamp := Timestamp ev; lf_retry_send := true |})
    else Ok ([], {| lf_response := rsp; lf_timestamp := Timestamp ev;
                    lf_retry_send := false |}).
Proof.
  intros Hm. unfold handleResponse. rewrite Hm. simpl.
  destruct (BackOff options && _); reflexivity.
Qed.

Lemma handleResponse_no_event (options : GlobalOptions) rsp :
  (∀ ev, Metadata rsp ≠ IEvent ev) -> handleResponse options rsp = Panic.
Proof.
  intros Hm. unfold handleResponse.
  destruct (Metadata rsp) as [|ev|o]; [reflexivity | | reflexivity].
  exfalso. apply (Hm ev). reflexivity.
Qed.

Lemma retryable_iff (options : GlobalOptions) rsp :
  BackOff options && ((StatusCode rsp =? 429) || (StatusCode rsp =? 500)) = true
  <-> BackOff options = true ∧ (StatusCode rsp = 429 ∨ StatusCode rsp = 500).
Proof.
  rewrite andb_true_iff, orb_true_iff, !Z.eqb_eq. reflexivity.
Qed.

(** C1: for a response that carries its originating event, the handler
    sends the event on [toBeResent] exactly when [BackOff] is set and the
    status code is 429 or 500; in that case it first sends the delay 100
    on [delaySending], and in every other case (any other status code,
    with or without a transport error) it sends nothing: the event is
    dropped. *)
Theorem handleResponses_retry_rule (options : GlobalOptions) rsp ev :
  Metadata rsp = IEvent ev ->
  let retryable :=
    BackOff options = true ∧ (StatusCode rsp = 429 ∨ StatusCode rsp = 500) in
  ∃ ops lf, handleResponse options rsp = Ok (ops, lf)
    ∧ (SendResent ev ∈ ops <-> retryable)
    ∧ (SendDelay 100 ∈ ops <-> retryable)
    ∧ (retryable -> ops = [SendDelay 100; SendResent ev] ∧ lf_retry_send lf = true)
    ∧ (¬ retryable -> ops = [] ∧ lf_retry_send lf = false).
Proof.
  intros Hm retryable. rewrite (handleResponse_event options rsp ev Hm).
  pose proof (retryable_iff options rsp) as Hiff. fold retryable in Hiff.
  destruct (BackOff options && _) eqn:Hb.
  - assert (Hr : retryable) by (apply Hiff; reflexivity).
    eexists _, _. split; [reflexivity|]. simpl.
    split; [|split; [|split]].
    + split; [intros _; exact Hr|intros _].
      apply elem_of_cons. right. apply elem_of_cons. left. reflexivity.
    + split; [intros _; exact Hr|intros _].
      apply elem_of_cons. left. reflexivity.
    + intros _. split; reflexivity.
    + intros Hn. contradiction.
  - assert (Hr : ¬ retryable) by (intros Hr; apply Hiff in Hr; discriminate Hr).
    eexists _, _. split; [reflexivity|]. simpl.
    split; [|split; [|split]].
    + split; [intros Hin; inversion Hin|intros Hy; contradiction].
    + split; [intros Hin; inversion Hin|intros Hy; contradiction].
    + intros Hy. contradiction.
    + intros _. split; reflexivity.
Qed.

(** C3 (as the code has it): the handler handles, without panicking,
    every response whose metadata slot holds the originating event; on a
    response whose slot is nil or holds a value of another type the type
    assertion panics, so that this response is not logged and the loop
    handles no later response. *)
Theorem handleResponses_metadata (options : GlobalOptions) rsp :
  (∀ ev, Metadata rsp = IEvent ev ->
     ∃ ops lf, handleResponse options rsp = Ok (ops, lf)
       ∧ ∀ rest, handleResponses (rsp :: rest) options
                 = (ops ++ (handleResponses rest options).1.1,
                    lf :: (handleResponses rest options).1.2,
                    (handleResponses rest options).2))
  ∧ ((∀ ev, Metadata rsp ≠ IEvent ev) ->
     handleResponse options rsp = Panic
     ∧ ∀ rest, handleResponses (rsp :: rest) options = ([], [], Panic)).
Proof.
  split.
  - intros ev Hm.
    pose proof (handleResponse_event options rsp ev Hm) as Hok.
    destruct (BackOff options && _) in Hok;
      (eexists _, _; split; [exact Hok|]);
      intros rest; simpl; rewrite Hok;
      destruct (handleResponses rest options) as [[ops' lfs] r]; reflexivity.
  - intros Hm. pose proof (handleResponse_no_event options rsp Hm) as Hp.
    split; [exact Hp|]. intros rest. simpl. rewrite Hp. reflexivity.
Qed.

(** ** The channels between the handler and the sender *)

Lemma handleResponse_sends (options : GlobalOptions) rsp ops lf :
  handleResponse options rsp = Ok (ops, lf) ->
  ∃ ev, Metadata rsp = IEvent ev ∧ (ops = [SendDelay 100; SendResent ev] ∨ ops = []).
Proof.
  intros Hok. destruct (Metadata rsp) as [|ev|o] eqn:Hm;
    try (unfold handleResponse in Hok; rewrite Hm in Hok; discriminate Hok).
  exists ev. split; [reflexivity|].
  rewrite (handleResponse_event options rsp ev Hm) in Hok.
  destruct (BackOff options && _); inversion Hok; auto.
Qed.

Lemma retry_capacity_range (options : GlobalOptions) :
  0 <= retry_capacity options < 2 ^ 64.
Proof. unfold retry_capacity, wrap_uint. apply Z.mod_pos_bound. lia. Qed.

Lemma retry_capacity_le (options : GlobalOptions) :
  0 <= NumSenders options -> retry_capacity options <= 2 * NumSenders options.
Proof. intros Hn. unfold retry_capacity, wrap_uint. apply Z.mod_le; lia. Qed.

(** Neither buffer ever holds more than the capacity it was made with. *)
Lemma reachable_within_capacity (options : GlobalOptions) s :
  reachable options s ->
  Z.of_nat (length (q_resent s)) <= retry_capacity options
  ∧ Z.of_nat (length (q_delay s)) <= retry_capacity options.
Proof.
  pose proof (retry_capacity_range options) as Hcap.
  induction 1 as [|s s' _ [IHr IHd] Hstep]; [simpl; lia|].
  destruct Hstep as [s rsp ops lf _ _ | s ms rest _ Hroom | s ev rest _ Hroom
                    | s delay rest Hq | s ev rest Hq | s op rest _ _]; simpl.
  - lia.
  - rewrite length_app. simpl. lia.
  - rewrite length_app. simpl. lia.
  - rewrite Hq in IHd. simpl in IHd. lia.
  - rewrite Hq in IHr. simpl in IHr. lia.
  - lia.
Qed.

(** The handler is the only writer of [delaySending], and 100 is the
    only delay it writes. *)
Lemma reachable_delays (options : GlobalOptions) s :
  reachable options s ->
  Forall (fun delay => delay = 100) (q_delay s)
  ∧ Forall (fun op => ∀ ms, op = SendDelay ms -> ms = 100) (h_pending s).
Proof.
  induction 1 as [|s s' _ [IHq IHp] Hstep]; [split; constructor|].
  destruct Hstep as [s rsp ops lf _ Hok | s ms rest Hp _ | s ev rest Hp _
                    | s delay rest Hq | s ev rest _ | s op rest Hp _]; simpl.
  - split; [exact IHq|].
    destruct (handleResponse_sends _ _ _ _ Hok) as (ev & _ & [-> | ->]);
      repeat constructor; congruence.
  - rewrite Hp in IHp. inversion IHp as [|op l Hop Hrest]; subst.
    split; [|exact Hrest]. apply Forall_app. split; [exact IHq|].
    constructor; [|constructor]. apply Hop. reflexivity.
  - rewrite Hp in IHp. inversion IHp; subst. split; assumption.
  - rewrite Hq in IHq. inversion IHq; subst. split; assumption.
  - split; assumption.
  - rewrite Hp in IHp. inversion IHp; subst. split; assumption.
Qed.

(** The receives of one iteration of the sender are steps of the system. *)
Lemma sendToLibhoney_iter_reachable (options : GlobalOptions) s (toBeSent : recv) :
  reachable options s ->
  reachable options
    {| q_resent := it_toBeResent (sendToLibhoney_iter toBeSent (q_resent s) (q_delay s));
       q_delay := it_delaySending (sendToLibhoney_iter toBeSent (q_resent s) (q_delay s));
       h_pending := h_pending s |}.
Proof.
  intros Hs. destruct s as [resent delays pending]. simpl.
  assert (Hd : reachable options
                 {| q_resent := resent; q_delay := tail delays; h_pending := pending |}).
  { destruct delays as [|delay rest]; [exact Hs|].
    eapply reach_step; [exact Hs|]. eapply step_recv_delay. reflexivity. }
  assert (Hr : reachable options
                 {| q_resent := tail resent; q_delay := tail delays; h_pending := pending |}).
  { destruct resent as [|ev rest]; [exact Hd|].
    eapply reach_step; [exact Hd|]. eapply step_recv_resent. reflexivity. }
  unfold sendToLibhoney_iter.
  destruct delays as [|delay rest]; destruct resent as [|ev more];
    try destruct toBeSent; simpl in *; assumption.
Qed.

(** C8: with a positive [NumSenders], the buffer of the retry channel
    never holds more than [2 * NumSenders] events, in any state that the
    handler and the sender can reach. *)
Theorem retry_queue_bounded (options : GlobalOptions) s :
  0 < NumSenders options ->
  reachable options s ->
  Z.of_nat (length (q_resent s)) <= 2 * NumSenders options.
Proof.
  intros Hpos Hs.
  pose proof (reachable_within_capacity options s Hs) as [Hr _].
  pose proof (retry_capacity_le options) as Hcap. lia.
Qed.

(** C6: in every state of the channels, an iteration of the sender loop
    serves its inputs in the order delay, retry, primary.  A pending delay
    is taken and slept, in milliseconds, before the rest of the iteration,
    which is the iteration without a delay; with no delay pending and a
    non-empty retry queue, the iteration takes the oldest retry event,
    sends it and takes nothing from the primary queue, whatever that
    offers; the primary queue is served only when the retry queue is
    empty; and when nothing is ready the iteration sleeps 100
    milliseconds and the loop continues. *)
Theorem sendToLibhoney_priority (options : GlobalOptions) s (toBeSent : recv) :
  reachable options s ->
  let it := sendToLibhoney_iter toBeSent (q_resent s) (q_delay s) in
  (∀ delay rest, q_delay s = delay :: rest ->
     it_actions it
     = Sleep (delay * Millisecond)
         :: it_actions (sendToLibhoney_iter toBeSent (q_resent s) [])
     ∧ it_delaySending it = rest)
  ∧ (∀ ev rest, q_resent s = ev :: rest ->
       q_delay s = [] ->
       it = {| it_actions := [Send (sendEvent ev)]; it_delaySending := [];
               it_toBeResent := rest; it_received := false; it_control := Continue |})
  ∧ (∀ ev rest, q_resent s = ev :: rest ->
       last (it_actions it) = Some (Send (sendEvent ev))
       ∧ it_toBeResent it = rest ∧ it_received it = false ∧ it_control it = Continue)
  ∧ (∀ ev, toBeSent = Ready ev -> q_resent s = [] -> q_delay s = [] ->
       it = {| it_actions := [Send (sendEvent ev)]; it_delaySending := [];
               it_toBeResent := []; it_received := true; it_control := Continue |})
  ∧ (toBeSent = NotReady -> q_resent s = [] -> q_delay s = [] ->
       it = {| it_actions := [Sleep (100 * Millisecond)]; it_delaySending := [];
               it_toBeResent := []; it_received := false; it_control := Continue |}).
Proof.
  intros Hs it. subst it.
  pose proof (reachable_delays options s Hs) as [Hdelays _].
  destruct s as [resent delays pending]. simpl in *.
  split; [|split; [|split; [|split]]].
  - intros delay rest ->. inversion Hdelays as [|d l Hd _]; subst.
    unfold sendToLibhoney_iter.
    destruct resent as [|ev more]; [destruct toBeSent|]; simpl; split; reflexivity.
  - intros ev rest -> ->. reflexivity.
  - intros ev rest ->. unfold sendToLibhoney_iter.
    destruct delays as [|delay more]; simpl; repeat split; reflexivity.
  - intros ev -> -> ->. reflexivity.
  - intros -> -> ->. reflexivity.
Qed.

(** With room in both buffers, the handler gets a retryable response
    into the retry queue, behind its delay. *)
Lemma retry_reaches_queue (options : GlobalOptions) s rsp ev :
  reachable options s ->
  h_pending s = [] ->
  Metadata rsp = IEvent ev ->
  BackOff options = true ->
  StatusCode rsp = 429 ∨ StatusCode rsp = 500 ->
  Z.of_nat (length (q_delay s)) < retry_capacity options ->
  Z.of_nat (length (q_resent s)) < retry_capacity options ->
  reachable options
    {| q_resent := q_resent s ++ [ev]; q_delay := q_delay s ++ [100]; h_pending := [] |}.
Proof.
  intros Hs Hidle Hm Hb Hcode Hdelay Hresent.
  pose proof (handleResponse_event options rsp ev Hm) as Hok.
  rewrite (proj2 (retryable_iff options rsp) (conj Hb Hcode)) in Hok.
  set (s1 := {| q_resent := q_resent s; q_delay := q_delay s;
                h_pending := [SendDelay 100; SendResent ev] |}).
  set (s2 := {| q_resent := q_resent s; q_delay := q_delay s ++ [100];
                h_pending := [SendResent ev] |}).
  assert (H1 : reachable options s1).
  { apply (reach_step _ s); [exact Hs|].
    exact (step_response options s rsp _ _ Hidle Hok). }
  assert (H2 : reachable options s2).
  { apply (reach_step _ s1); [exact H1|].
    apply (step_send_delay options s1 100 [SendResent ev]); [reflexivity | exact Hdelay]. }
  apply (reach_step _ s2); [exact H2|].
  apply (step_send_resent options s2 ev []); [reflexivity | exact Hresent].
Qed.

End Transmission.

(** *** The handler and the sender on the sample inputs *)

Lemma sample_full_reachable : reachable sample_options sample_full.
Proof.
  assert (H1 : reachable sample_options
                 {| q_resent := [sample_event]; q_delay := [100]; h_pending := [] |}).
  { apply (retry_reaches_queue sample_options sys_init sample_retry sample_event);
      first [apply reach_init | reflexivity | left; reflexivity]. }
  apply (retry_reaches_queue sample_options _ sample_retry sample_event H1);
    first [reflexivity | left; reflexivity].
Qed.

(** C1 on a 429 response with back-off enabled. *)
Lemma handleResponses_retry_rule_sample :
  Metadata sample_retry = IEvent sample_event
  ∧ ∃ ops lf, handleResponse sample_options sample_retry = Ok (ops, lf)
      ∧ (SendResent sample_event ∈ ops
         <-> BackOff sample_options = true
             ∧ (StatusCode sample_retry = 429 ∨ StatusCode sample_retry = 500))
      ∧ (SendDelay 100 ∈ ops
         <-> BackOff sample_options = true
             ∧ (StatusCode sample_retry = 429 ∨ StatusCode sample_retry = 500))
      ∧ (BackOff sample_options = true
         ∧ (StatusCode sample_retry = 429 ∨ StatusCode sample_retry = 500) ->
         ops = [SendDelay 100; SendResent sample_event] ∧ lf_retry_send lf = true)
      ∧ (¬ (BackOff sample_options = true
            ∧ (StatusCode sample_retry = 429 ∨ StatusCode sample_retry = 500)) ->
         ops = [] ∧ lf_retry_send lf = false).
Proof.
  split; [reflexivity|].
  apply (handleResponses_retry_rule sample_options sample_retry sample_event).
  reflexivity.
Defined.

(** C3 as written does not hold: on a response with an empty metadata
    slot the loop panics; it logs nothing and does not get to the next
    response. *)
Lemma handleResponses_orphan_panics :
  handleResponses [sample_orphan; sample_retry] sample_options = ([], [], Panic).
Proof. reflexivity. Qed.

(** C8 with one sender: two events fill the retry queue. *)
Lemma retry_queue_bounded_sample :
  0 < NumSenders sample_options
  ∧ reachable sample_options sample_full
  ∧ Z.of_nat (length (q_resent sample_full)) <= 2 * NumSenders sample_options.
Proof.
  split; [reflexivity|]. split; [exact sample_full_reachable|].
  apply (retry_queue_bounded sample_options sample_full);
    [reflexivity | exact sample_full_reachable].
Defined.

(** C6 with a delay, a retry event and a primary event all pending. *)
Lemma sendToLibhoney_priority_sample :
  reachable sample_options sample_full
  ∧ let s := sample_full in
    let toBeSent := Ready sample_event in
    let it := sendToLibhoney_iter toBeSent (q_resent s) (q_delay s) in
    (∀ delay rest, q_delay s = delay :: rest ->
       it_actions it
       = Sleep (delay * Millisecond)
           :: it_actions (sendToLibhoney_iter toBeSent (q_resent s) [])
       ∧ it_delaySending it = rest)
    ∧ (∀ ev rest, q_resent s = ev :: rest ->
         q_delay s = [] ->
         it = {| it_actions := [Send (sendEvent ev)]; it_delaySending := [];
                 it_toBeResent := rest; it_received := false; it_control := Continue |})
    ∧ (∀ ev rest, q_resent s = ev :: rest ->
         last (it_actions it) = Some (Send (sendEvent ev))
         ∧ it_toBeResent it = rest ∧ it_received it = false ∧ it_control it = Continue)
    ∧ (∀ ev, toBeSent = Ready ev -> q_resent s = [] -> q_delay s = [] ->
         it = {| it_actions := [Send (sendEvent ev)]; it_delaySending := [];
                 it_toBeResent := []; it_received := true; it_control := Continue |})
    ∧ (toBeSent = NotReady -> q_resent s = [] -> q_delay s = [] ->
         it = {| it_actions := [Sleep (100 * Millisecond)]; it_delaySending := [];
                 it_toBeResent := []; it_received := false; it_control := Continue |}).
Proof.
  split; [exact sample_full_reachable|].
  apply (sendToLibhoney_priority sample_options sample_full (Ready sample_event)).
  exact sample_full_reachable.
Defined.

(** That iteration, computed: sleep 100 ms, then resend the oldest
    retry event; the primary event stays where it is. *)
Example sendToLibhoney_iter_sample :
  sendToLibhoney_iter (Ready sample_event) (q_resent sample_full) (q_delay sample_full)
  = {| it_actions := [Sleep 100000000; Send (sendEvent sample_event)];
       it_delaySending := [100]; it_toBeResent := [sample_event];
       it_received := false; it_control := Continue |}.
Proof. reflexivity. Qed.

(** * Further properties of [leash.go] *)

(** ** The digest that a scrub stores *)

Lemma be_bytes_length (n : nat) (x : Z) : length (SHA256.be_bytes n x) = n.
Proof. unfold SHA256.be_bytes. rewrite length_map, length_rev, length_seq. reflexivity. Qed.

Lemma be_bytes_range (n : nat) (x : Z) :
  Forall (fun b => 0 <= b < 256) (SHA256.be_bytes n x).
Proof.
  unfold SHA256.be_bytes. apply List.Forall_forall. intros b Hb.
  apply in_map_iff in Hb as (i & <- & _).
  change 0xff with (Z.ones 8). rewrite Z.land_ones by lia.
  apply Z.mod_pos_bound. lia.
Qed.

Lemma blocks_length (n : nat) (h bs : list Z) :
  length h = 8%nat -> length (SHA256.blocks n h bs) = 8%nat.
Proof.
  revert h bs. induction n as [|n IH]; intros h bs Hh; simpl; [exact Hh|].
  apply IH. unfold SHA256.block.
  rewrite length_map, length_combine, Hh. reflexivity.
Qed.

Lemma Sum256_length (msg : list Z) : length (SHA256.Sum256 msg) = 32%nat.
Proof.
  unfold SHA256.Sum256.
  pose proof (blocks_length (Nat.div (length (SHA256.pad msg)) 64) SHA256.init
                (SHA256.pad msg) eq_refl) as Hlen.
  revert Hlen. generalize (SHA256.blocks (Nat.div (length (SHA256.pad msg)) 64)
                             SHA256.init (SHA256.pad msg)).
  intros l Hlen.
  assert (Hflat : length (flat_map (SHA256.be_bytes 4) l) = (4 * length l)%nat).
  { clear Hlen. induction l as [|w l IH]; [reflexivity|].
    change (flat_map (SHA256.be_bytes 4) (w :: l))
      with (SHA256.be_bytes 4 w ++ flat_map (SHA256.be_bytes 4) l).
    rewrite length_app, IH, be_bytes_length. simpl. lia. }
  rewrite Hflat, Hlen. reflexivity.
Qed.

Lemma Sum256_range (msg : list Z) : Forall (fun b => 0 <= b < 256) (SHA256.Sum256 msg).
Proof.
  unfold SHA256.Sum256. apply Forall_flat_map, List.Forall_forall.
  intros w _. apply be_bytes_range.
Qed.

Lemma hex_digit_lower (d : Z) : 0 <= d < 16 -> is_lower_hex (hex_digit d) = true.
Proof.
  intros Hd.
  assert (Hcases : In d [0; 1; 2; 3; 4; 5; 6; 7; 8; 9; 10; 11; 12; 13; 14; 15]).
  { replace d with (Z.of_nat (Z.to_nat d)) by lia.
    assert (Hn : (Z.to_nat d < 16)%nat) by lia. revert Hn.
    generalize (Z.to_nat d). intros n Hn.
    do 16 (destruct n as [|n]; [simpl; tauto|]). lia. }
  simpl in Hcases.
  repeat (destruct Hcases as [<-|Hcases]; [reflexivity|]). contradiction.
Qed.

Lemma Sprintf_x_shape (bs : list Z) :
  Forall (fun b => 0 <= b < 256) bs ->
  String.length (Sprintf_x bs) = (2 * length bs)%nat
  ∧ forallb is_lower_hex (list_ascii_of_string (Sprintf_x bs)) = true.
Proof.
  induction 1 as [|b bs Hb _ [IHlen IHhex]]; [split; reflexivity|].
  simpl Sprintf_x. split.
  - simpl. rewrite IHlen. lia.
  - simpl. rewrite IHhex, !hex_digit_lower; [reflexivity | |].
    + change 15 with (Z.ones 4). rewrite Z.land_ones by lia.
      apply Z.mod_pos_bound. lia.
    + rewrite Z.shiftr_div_pow2 by lia. change (2 ^ 4) with 16.
      split; [apply Z.div_pos; lia | apply Z.div_lt_upper_bound; lia].
Qed.

Lemma hex_sha256_digest (s : string) : is_hex_digest (hex_sha256 s).
Proof.
  unfold is_hex_digest, hex_sha256.
  destruct (Sprintf_x_shape _ (Sum256_range (bytes_of_string s))) as [Hlen Hhex].
  rewrite Hlen, Sum256_length. split; [reflexivity | exact Hhex].
Qed.

(** ** [strings.SplitN] and the add specification *)

Lemma cut_Some (sep : ascii) (s before after : string) :
  cut sep s = Some (before, after) ->
  s = before +:+ String sep after ∧ contains_byte sep before = false.
Proof.
  revert before. induction s as [|c s IH]; intros before Hcut; simpl in Hcut.
  - discriminate Hcut.
  - destruct (Ascii.eqb_spec c sep) as [->|Hc].
    + inversion Hcut; subst. split; reflexivity.
    + destruct (cut sep s) as [[b a]|] eqn:Hs; [|discriminate Hcut].
      inversion Hcut; subst. destruct (IH b eq_refl) as [-> Hfree].
      split; [reflexivity|]. simpl. rewrite Hfree.
      apply Ascii.eqb_neq in Hc. rewrite Hc. reflexivity.
Qed.

Lemma cut_present (sep : ascii) (s : string) :
  contains_byte sep s = true -> ∃ before after, cut sep s = Some (before, after).
Proof.
  induction s as [|c s IH]; simpl; intros Hin; [discriminate Hin|].
  destruct (Ascii.eqb c sep); [eauto|].
  destruct (IH Hin) as (b & a & ->). eauto.
Qed.

(** ** What the chain lets through *)

Section Chain.

Context {other : Type} (fmt_other : other -> string).

Local Abbreviation Ev := (@Event other) (only parsing).

Implicit Types (ev : Ev) (toBeSent : list Ev) (pairs : list (string * string)).

Lemma drops_event (fields : list string) ev (k : string) :
  Timestamp (fold_left (fun e field => drop_body field e) fields ev) = Timestamp ev
  ∧ Data (fold_left (fun e field => drop_body field e) fields ev) !! k
    = if decide (k ∈ fields) then None else Data ev !! k.
Proof.
  revert ev. induction fields as [|f fields IH]; intros ev; cbn [fold_left].
  - split; [reflexivity|]. rewrite decide_False; [reflexivity | apply not_elem_of_nil].
  - destruct (IH (drop_body f ev)) as [-> ->]. cbn [drop_body Timestamp Data].
    split; [reflexivity|].
    destruct (decide (k = f)) as [->|Hk].
    + rewrite lookup_delete_eq, (decide_True (P := f ∈ f :: fields))
        by (apply elem_of_cons; tauto).
      destruct (decide (f ∈ fields)); reflexivity.
    + rewrite (lookup_delete_ne _ f k) by congruence.
      destruct (decide (k ∈ fields)) as [Hin|Hout].
      * rewrite decide_True by (apply elem_of_cons; tauto). reflexivity.
      * rewrite decide_False; [reflexivity|].
        rewrite elem_of_cons. tauto.
Qed.

Lemma scrub_body_lookup (f : string) ev (k : string) :
  Timestamp (scrub_body fmt_other f ev) = Timestamp ev
  ∧ (k ≠ f -> Data (scrub_body fmt_other f ev) !! k = Data ev !! k)
  ∧ (Data ev !! k = None -> Data (scrub_body fmt_other f ev) !! k = None)
  ∧ (Data (scrub_body fmt_other f ev) !! f = None
     ∨ ∃ s, Data (scrub_body fmt_other f ev) !! f = Some (VString (hex_sha256 s))).
Proof.
  unfold scrub_body. destruct (Data ev !! f) as [val|] eqn:Hf; simpl.
  - split; [reflexivity|]. split; [|split].
    + intros Hk. apply lookup_insert_ne. congruence.
    + intros Hnone. rewrite lookup_insert_ne; [exact Hnone | congruence].
    + right. exists (Sprintf_v fmt_other val). apply lookup_insert_eq.
  - split; [reflexivity|]. split; [reflexivity|]. split; [tauto | left; exact Hf].
Qed.

Lemma scrubs_event (fields : list string) ev (k : string) :
  Timestamp (fold_left (fun e field => scrub_body fmt_other field e) fields ev) = Timestamp ev
  ∧ (k ∉ fields ->
     Data (fold_left (fun e field => scrub_body fmt_other field e) fields ev) !! k
     = Data ev !! k)
  ∧ (Data ev !! k = None ->
     Data (fold_left (fun e field => scrub_body fmt_other field e) fields ev) !! k = None)
  ∧ (k ∈ fields ->
     Data (fold_left (fun e field => scrub_body fmt_other field e) fields ev) !! k = None
     ∨ ∃ s, Data (fold_left (fun e field => scrub_body fmt_other field e) fields ev) !! k
            = Some (VString (hex_sha256 s))).
Proof.
  revert ev. induction fields as [|f fields IH]; intros ev; cbn [fold_left].
  - split; [reflexivity|]. split; [reflexivity|]. split; [tauto|].
    intros Hin. inversion Hin.
  - destruct (IH (scrub_body fmt_other f ev)) as (Hts & Hother & Hnone & Hdig).
    destruct (scrub_body_lookup f ev k) as (Hts1 & Hother1 & Hnone1 & _).
    split; [congruence|]. split; [|split].
    + intros Hout. rewrite not_elem_of_cons in Hout. destruct Hout as [Hk Hout].
      rewrite (Hother Hout). apply Hother1, Hk.
    + intros Hk. apply Hnone, Hnone1, Hk.
    + intros Hin. destruct (decide (k ∈ fields)) as [Hrest|Hrest]; [apply Hdig, Hrest|].
      apply elem_of_cons in Hin as [->|Hin]; [|contradiction].
      rewrite (Hother Hrest).
      destruct (scrub_body_lookup f ev f) as (_ & _ & _ & Hf). exact Hf.
Qed.

Lemma last_value_snoc (k : string) pairs (kv : string * string) :
  last_value k (pairs ++ [kv])
  = if String.eqb kv.1 k then Some kv.2 else last_value k pairs.
Proof. unfold last_value. rewrite fold_left_app. reflexivity. Qed.

Lemma last_value_absent (k : string) pairs :
  k ∉ pairs.*1 -> last_value k pairs = None.
Proof.
  induction pairs as [|kv pairs IH] using rev_ind; intros Hout; [reflexivity|].
  rewrite fmap_app, not_elem_of_app in Hout. destruct Hout as [Hrest Hkv].
  rewrite last_value_snoc, (IH Hrest).
  destruct (String.eqb_spec kv.1 k) as [Heq|_]; [|reflexivity].
  exfalso. apply Hkv. simpl. rewrite Heq. apply list_elem_of_singleton. reflexivity.
Qed.

Lemma adds_event pairs ev (k : string) :
  Timestamp (fold_left (fun e kv => add_body kv.1 kv.2 e) pairs ev) = Timestamp ev
  ∧ Data (fold_left (fun e kv => add_body kv.1 kv.2 e) pairs ev) !! k
    = match last_value k pairs with
      | Some val => Some (VString val)
      | None => Data ev !! k
      end.
Proof.
  induction pairs as [|kv pairs [IHts IHk]] using rev_ind; [split; reflexivity|].
  rewrite fold_left_app, last_value_snoc. simpl. split; [exact IHts|].
  destruct (String.eqb_spec kv.1 k) as [<-|Hk].
  - apply lookup_insert_eq.
  - rewrite lookup_insert_ne by exact Hk. exact IHk.
Qed.

Lemma modifyEventContents_chain toBeSent (options : GlobalOptions) pairs :
  Forall2 (fun field kv => SplitN2 field "=" = [kv.1; kv.2]) (AddFields options) pairs ->
  modifyEventContents fmt_other toBeSent options
  = Proceed (chain_body fmt_other options pairs <$> toBeSent).
Proof.
  intros Hsplit. unfold modifyEventContents, dropEventField, scrubEventField.
  rewrite (stages_fold drop_body), (stages_fold (scrub_body fmt_other)).
  rewrite (add_stages_fold _ pairs) by assumption.
  rewrite <- !list_fmap_compose. reflexivity.
Qed.

(** The three runs of a chain, read at one key. *)
Lemma chain_body_lookup (options : GlobalOptions) pairs ev (k : string) :
  Timestamp (chain_body fmt_other options pairs ev) = Timestamp ev
  ∧ Data (chain_body fmt_other options pairs ev) !! k
    = match last_value k pairs with
      | Some val => Some (VString val)
      | None =>
          Data (fold_left (fun e field => scrub_body fmt_other field e) (ScrubFields options)
                  (fold_left (fun e field => drop_body field e) (DropFields options) ev)) !! k
      end.
Proof.
  unfold chain_body.
  destruct (adds_event pairs
              (fold_left (fun e field => scrub_body fmt_other field e) (ScrubFields options)
                 (fold_left (fun e field => drop_body field e) (DropFields options) ev)) k)
    as [Hts Hk].
  split; [|exact Hk].
  rewrite Hts. destruct (scrubs_event (ScrubFields options)
    (fold_left (fun e field => drop_body field e) (DropFields options) ev) k) as [-> _].
  apply (drops_event (DropFields options) ev k).
Qed.

(** X1: the chain keeps the events as they come: with add specifications
    that split, it returns as many events as it reads, in the same order
    and with the same timestamps, and in each event every entry whose key
    is neither dropped, nor scrubbed, nor added is as the parser wrote it. *)
Theorem modifyEventContents_untouched toBeSent (options : GlobalOptions) pairs :
  Forall2 (fun field kv => SplitN2 field "=" = [kv.1; kv.2]) (AddFields options) pairs ->
  ∃ out, modifyEventContents fmt_other toBeSent options = Proceed out
    ∧ length out = length toBeSent
    ∧ ∀ (i : nat) ev, toBeSent !! i = Some ev ->
        ∃ ev', out !! i = Some ev'
          ∧ Timestamp ev' = Timestamp ev
          ∧ ∀ k : string,
              k ∉ DropFields options -> k ∉ ScrubFields options -> k ∉ pairs.*1 ->
              Data ev' !! k = Data ev !! k.
Proof.
  intros Hsplit. exists (chain_body fmt_other options pairs <$> toBeSent).
  split; [apply modifyEventContents_chain, Hsplit|].
  split; [apply length_fmap|].
  intros i ev Hi. exists (chain_body fmt_other options pairs ev).
  split; [apply stage_lookup, Hi|].
  split; [apply (chain_body_lookup options pairs ev EmptyString)|].
  intros k Hdrop Hscrub Hadd.
  destruct (chain_body_lookup options pairs ev k) as [_ ->].
  rewrite (last_value_absent k pairs Hadd).
  destruct (scrubs_event (ScrubFields options)
    (fold_left (fun e field => drop_body field e) (DropFields options) ev) k)
    as (_ & Hother & _).
  rewrite (Hother Hscrub).
  destruct (drops_event (DropFields options) ev k) as [_ ->].
  rewrite decide_False by exact Hdrop. reflexivity.
Qed.

(** X2: a dropped field does not reach the sender: when [f] is in
    [DropFields] and no add specification has the key [f], no event that
    leaves the chain has an entry for [f], whether or not [f] is also in
    [ScrubFields]. *)
Theorem dropped_field_absent toBeSent (options : GlobalOptions) pairs (f : string) :
  Forall2 (fun field kv => SplitN2 field "=" = [kv.1; kv.2]) (AddFields options) pairs ->
  f ∈ DropFields options ->
  f ∉ pairs.*1 ->
  ∃ out, modifyEventContents fmt_other toBeSent options = Proceed out
    ∧ ∀ ev', ev' ∈ out -> Data ev' !! f = None.
Proof.
  intros Hsplit Hdrop Hadd. exists (chain_body fmt_other options pairs <$> toBeSent).
  split; [apply modifyEventContents_chain, Hsplit|].
  intros ev' Hin. apply list_elem_of_fmap in Hin as (ev & -> & _).
  destruct (chain_body_lookup options pairs ev f) as [_ ->].
  rewrite (last_value_absent f pairs Hadd).
  destruct (scrubs_event (ScrubFields options)
    (fold_left (fun e field => drop_body field e) (DropFields options) ev) f)
    as (_ & _ & Hnone & _).
  apply Hnone. destruct (drops_event (DropFields options) ev f) as [_ ->].
  rewrite decide_True by exact Hdrop. reflexivity.
Qed.

(** X3: the last add specification for a key decides its value: every
    event that leaves the chain has that string under the key, also when
    the key is dropped or scrubbed or added before with another value. *)
Theorem last_add_wins toBeSent (options : GlobalOptions) pairs (k val : string) :
  Forall2 (fun field kv => SplitN2 field "=" = [kv.1; kv.2]) (AddFields options) pairs ->
  last_value k pairs = Some val ->
  ∃ out, modifyEventContents fmt_other toBeSent options = Proceed out
    ∧ ∀ ev', ev' ∈ out -> Data ev' !! k = Some (VString val).
Proof.
  intros Hsplit Hlast. exists (chain_body fmt_other options pairs <$> toBeSent).
  split; [apply modifyEventContents_chain, Hsplit|].
  intros ev' Hin. apply list_elem_of_fmap in Hin as (ev & -> & _).
  destruct (chain_body_lookup options pairs ev k) as [_ ->].
  rewrite Hlast. reflexivity.
Qed.

(** X4: a scrubbed field reaches the sender as a digest only: when [f]
    is in [ScrubFields] and no add specification has the key [f], an
    event that leaves the chain has under [f] either nothing or a string
    of 64 lowercase hexadecimal digits. *)
Theorem scrubbed_field_digest toBeSent (options : GlobalOptions) pairs (f : string) :
  Forall2 (fun field kv => SplitN2 field "=" = [kv.1; kv.2]) (AddFields options) pairs ->
  f ∈ ScrubFields options ->
  f ∉ pairs.*1 ->
  ∃ out, modifyEventContents fmt_other toBeSent options = Proceed out
    ∧ ∀ ev', ev' ∈ out ->
        Data ev' !! f = None
        ∨ ∃ h, Data ev' !! f = Some (VString h) ∧ is_hex_digest h.
Proof.
  intros Hsplit Hscrub Hadd. exists (chain_body fmt_other options pairs <$> toBeSent).
  split; [apply modifyEventContents_chain, Hsplit|].
  intros ev' Hin. apply list_elem_of_fmap in Hin as (ev & -> & _).
  destruct (chain_body_lookup options pairs ev f) as [_ ->].
  rewrite (last_value_absent f pairs Hadd).
  destruct (scrubs_event (ScrubFields options)
    (fold_left (fun e field => drop_body field e) (DropFields options) ev) f)
    as (_ & _ & _ & Hdig).
  destruct (Hdig Hscrub) as [Hnone | [s Hs]]; [left; exact Hnone|].
  right. exists (hex_sha256 s). split; [exact Hs | apply hex_sha256_digest].
Qed.

(** X5: the scrub stage stores, for an event that has the field, the
    hexadecimal SHA-256 of the [%v] rendering of the old value: a string
    of 64 lowercase hexadecimal digits, whatever the value was. *)
Theorem scrubEventField_digest toBeSent (i : nat) ev (f : string) (val : value) :
  toBeSent !! i = Some ev ->
  Data ev !! f = Some val ->
  ∃ ev', scrubEventField fmt_other f toBeSent !! i = Some ev'
    ∧ Data ev' !! f = Some (VString (hex_sha256 (Sprintf_v fmt_other val)))
    ∧ is_hex_digest (hex_sha256 (Sprintf_v fmt_other val)).
Proof.
  intros Hi Hf. exists (scrub_body fmt_other f ev).
  split; [apply stage_lookup, Hi|].
  split; [|apply hex_sha256_digest].
  rewrite (scrub_body_present _ _ _ _ Hf). apply lookup_insert_eq.
Qed.

(** X6: unlike a scrub, a drop and an add can be repeated: dropping a
    field twice is dropping it once, and an add stage applied to its own
    output changes nothing. *)
Theorem drop_add_idempotent toBeSent (f : string) :
  dropEventField f (dropEventField f toBeSent) = dropEventField f toBeSent
  ∧ ∀ (spec : string) out,
      addEventField spec toBeSent = Proceed out -> addEventField spec out = Proceed out.
Proof.
  split.
  - unfold dropEventField. rewrite <- list_fmap_compose.
    apply list_fmap_ext. intros _ ev _. unfold drop_body. simpl.
    f_equal. apply delete_delete_eq.
  - intros spec out. unfold addEventField.
    destruct (SplitN2 spec "=") as [|key [|val [|more rest]]]; try discriminate.
    intros Hout. inversion Hout as [Hout']. f_equal.
    rewrite <- list_fmap_compose. apply list_fmap_ext. intros _ ev _.
    unfold add_body. simpl. f_equal. apply insert_insert_eq.
Qed.

(** X7: within one kind, the order of distinct fields does not matter:
    two drop stages commute, two scrub stages for different fields
    commute, and two add stages for different keys commute. *)
Theorem stages_commute toBeSent (f g : string) :
  dropEventField f (dropEventField g toBeSent) = dropEventField g (dropEventField f toBeSent)
  ∧ (f ≠ g ->
     scrubEventField fmt_other f (scrubEventField fmt_other g toBeSent)
     = scrubEventField fmt_other g (scrubEventField fmt_other f toBeSent))
  ∧ (∀ spec1 spec2 k1 v1 k2 v2 : string,
       SplitN2 spec1 "=" = [k1; v1] -> SplitN2 spec2 "=" = [k2; v2] -> k1 ≠ k2 ->
       addEventField spec1 toBeSent ≫= addEventField spec2
       = addEventField spec2 toBeSent ≫= addEventField spec1).
Proof.
  split; [|split].
  - unfold dropEventField. rewrite <- !list_fmap_compose.
    apply list_fmap_ext. intros _ ev _. unfold drop_body. simpl.
    f_equal. apply delete_delete.
  - intros Hfg. unfold scrubEventField. rewrite <- !list_fmap_compose.
    apply list_fmap_ext. intros _ ev _. simpl.
    destruct (Data ev !! f) as [vf|] eqn:Hf; destruct (Data ev !! g) as [vg|] eqn:Hg.
    + rewrite (scrub_body_present _ g ev vg Hg), (scrub_body_present _ f ev vf Hf).
      rewrite (scrub_body_present _ f _ vf), (scrub_body_present _ g _ vg);
        [| simpl; rewrite lookup_insert_ne by congruence; exact Hg
         | simpl; rewrite lookup_insert_ne by congruence; exact Hf].
      simpl. f_equal. apply insert_insert_ne. exact Hfg.
    + rewrite (scrub_body_absent _ g ev Hg), (scrub_body_present _ f ev vf Hf).
      rewrite scrub_body_absent; [reflexivity|].
      simpl. rewrite lookup_insert_ne by congruence. exact Hg.
    + rewrite (scrub_body_absent _ f ev Hf), (scrub_body_present _ g ev vg Hg).
      rewrite scrub_body_absent; [reflexivity|].
      simpl. rewrite lookup_insert_ne by congruence. exact Hf.
    + rewrite (scrub_body_absent _ g ev Hg), (scrub_body_absent _ f ev Hf).
      rewrite (scrub_body_absent _ g ev Hg). reflexivity.
  - intros spec1 spec2 k1 v1 k2 v2 H1 H2 Hk.
    rewrite (addEventField_split spec1 k1 v1 toBeSent H1),
            (addEventField_split spec2 k2 v2 toBeSent H2).
    unfold mbind, startup_bind.
    rewrite (addEventField_split spec2 k2 v2 _ H2), (addEventField_split spec1 k1 v1 _ H1).
    f_equal. rewrite <- !list_fmap_compose.
    apply list_fmap_ext. intros _ ev _. unfold add_body. simpl.
    f_equal. apply insert_insert_ne. congruence.
Qed.

(** X8: an add specification is fatal exactly when it has no [=]; an
    accepted one is its key, [=] and its value put together again, the
    key being the part before the first [=] (possibly empty). *)
Theorem addEventField_accepts (field : string) toBeSent :
  (contains_byte "=" field = false <-> ∃ msg, addEventField field toBeSent = Fatal msg)
  ∧ ∀ out, addEventField field toBeSent = Proceed out ->
      ∃ key val : string,
        field = key +:+ "=" +:+ val
        ∧ contains_byte "=" key = false
        ∧ out = add_body key val <$> toBeSent.
Proof.
  unfold addEventField, SplitN2.
  destruct (cut "=" field) as [[key val]|] eqn:Hcut.
  - destruct (cut_Some _ _ _ _ Hcut) as [Hfield Hfree]. split.
    + split.
      * intros Hnone. rewrite (cut_absent _ _ Hnone) in Hcut. discriminate Hcut.
      * intros [msg Hmsg]. discriminate Hmsg.
    + intros out Hout. inversion Hout. exists key, val. auto.
  - split.
    + split; [eauto|]. intros _.
      destruct (contains_byte "=" field) eqn:Hin; [|reflexivity].
      destruct (cut_present _ _ Hin) as (b & a & Hsome). congruence.
    + intros out Hout. discriminate Hout.
Qed.

End Chain.

(** ** Responses and retries *)

Section Retry.

Context {other : Type}.

Local Abbreviation Ev := (@Event other) (only parsing).
Local Abbreviation Rsp := (@Response other) (only parsing).

Implicit Types (ev : Ev) (rsp : Rsp) (s : @Sys other) (responses : list Rsp).

Lemma handleResponse_retryable (options : GlobalOptions) rsp ev :
  Metadata rsp = IEvent ev ->
  handleResponse options rsp
  = Ok (if retryable options rsp then [SendDelay 100; SendResent ev] else [],
        {| lf_response := rsp; lf_timestamp := Timestamp ev;
           lf_retry_send := retryable options rsp |}).
Proof.
  intros Hm. rewrite (handleResponse_event options rsp ev Hm). unfold retryable.
  destruct (BackOff options && _); reflexivity.
Qed.

Lemma handleResponses_app responses (more : list Rsp) (options : GlobalOptions) :
  handleResponses (responses ++ more) options
  = match handleResponses responses options with
    | (ops, lfs, Ok _) =>
        (ops ++ (handleResponses more options).1.1,
         lfs ++ (handleResponses more options).1.2,
         (handleResponses more options).2)
    | (ops, lfs, Panic) => (ops, lfs, Panic)
    end.
Proof.
  induction responses as [|rsp responses IH]; simpl.
  - destruct (handleResponses more options) as [[ops lfs] r]. reflexivity.
  - destruct (handleResponse options rsp) as [|[ops lf]]; [reflexivity|].
    rewrite IH. destruct (handleResponses responses options) as [[ops' lfs'] [|[]]].
    + reflexivity.
    + simpl. rewrite app_assoc. reflexivity.
Qed.

(** X9: a response to an event that [sendEvent] handed to libhoney is
    always handled: the handler finds the event in the metadata, logs its
    timestamp, and, when the response is retryable, puts that very event
    on the retry channel, so that a retry hands libhoney the same
    metadata, timestamp and fields as the first attempt. *)
Theorem sendEvent_response_round_trip (options : GlobalOptions) ev rsp :
  Metadata rsp = lhMetadata (sendEvent ev) ->
  ∃ ops lf, handleResponse options rsp = Ok (ops, lf)
    ∧ lf_timestamp lf = lhTimestamp (sendEvent ev)
    ∧ lf_retry_send lf = retryable options rsp
    ∧ resent_events ops = (if retryable options rsp then [ev] else [])
    ∧ ∀ again, again ∈ resent_events ops -> sendEvent again = sendEvent ev.
Proof.
  intros Hm. simpl in Hm.
  eexists _, _. split; [apply (handleResponse_retryable options rsp ev Hm)|].
  simpl. split; [reflexivity|]. split; [reflexivity|].
  destruct (retryable options rsp); simpl.
  - split; [reflexivity|]. intros again Hin.
    apply list_elem_of_singleton in Hin as ->. reflexivity.
  - split; [reflexivity|]. intros again Hin. inversion Hin.
Qed.


(** X11: the handler stops at the first response without an event: the
    responses before it are handled and logged as usual, and neither it
    nor any response after it is. *)
Theorem handleResponses_stops_at_orphan responses rsp (rest : list Rsp)
    (options : GlobalOptions) :
  Forall (fun rsp => ∃ ev, Metadata rsp = IEvent ev) responses ->
  (∀ ev, Metadata rsp ≠ IEvent ev) ->
  ∃ ops lfs, handleResponses responses options = (ops, lfs, Ok tt)
    ∧ length lfs = length responses
    ∧ handleResponses (responses ++ rsp :: rest) options = (ops, lfs, Panic).
Proof.
  intros Hgood Horphan.
  assert (Hrun : ∃ ops lfs, handleResponses responses options = (ops, lfs, Ok tt)
                   ∧ length lfs = length responses).
  { induction Hgood as [|r rs [ev Hm] _ (ops & lfs & Hrun & Hlen)].
    - exists [], []. split; reflexivity.
    - simpl. rewrite (handleResponse_retryable options r ev Hm), Hrun.
      eexists _, _. split; [reflexivity|]. simpl. rewrite Hlen. reflexivity. }
  destruct Hrun as (ops & lfs & Hrun & Hlen). exists ops, lfs.
  split; [exact Hrun|]. split; [exact Hlen|].
  rewrite handleResponses_app, Hrun. simpl.
  rewrite (handleResponse_no_event options rsp Horphan). simpl.
  rewrite !app_nil_r. reflexivity.
Qed.

(** X12: without [BackOff] the retry machinery is inert: the handler
    never writes to either channel, so the only state that the handler
    and the sender reach is the initial one, with both buffers empty. *)
Theorem no_backoff_no_retry (options : GlobalOptions) s :
  BackOff options = false ->
  reachable options s ->
  s = sys_init.
Proof.
  intros Hoff. induction 1 as [|s s' _ -> Hstep]; [reflexivity|].
  inversion Hstep as [s0 rsp ops lf _ Hok | s0 ms rest Hp _ | s0 ev rest Hp _
                     | s0 delay rest Hq | s0 ev rest Hq | s0 op rest Hp _];
    subst; try discriminate.
  destruct (handleResponse_sends _ _ _ _ Hok) as (ev & Hm & [-> | ->]); [|reflexivity].
  rewrite (handleResponse_event options rsp ev Hm), Hoff in Hok. discriminate Hok.
Qed.

(** X13: the handler has at most one event in hand: in every reachable
    state it is idle, or about to send the delay and the event of one
    retryable response, or about to send that event; together with the
    bound on the buffers, at most [2 * NumSenders + 1] events await a
    retry, and at most [2 * NumSenders] delays are pending. *)
Theorem retry_in_flight_bounded (options : GlobalOptions) s :
  0 < NumSenders options ->
  reachable options s ->
  (h_pending s = []
   ∨ ∃ ev, h_pending s = [SendDelay 100; SendResent ev] ∨ h_pending s = [SendResent ev])
  ∧ Z.of_nat (length (q_resent s) + length (resent_events (h_pending s)))
    <= 2 * NumSenders options + 1
  ∧ Z.of_nat (length (q_delay s)) <= 2 * NumSenders options.
Proof.
  intros Hpos Hs.
  assert (Hshape : h_pending s = []
                   ∨ ∃ ev, h_pending s = [SendDelay 100; SendResent ev]
                           ∨ h_pending s = [SendResent ev]).
  { clear Hpos. induction Hs as [|s s' _ IH Hstep]; [left; reflexivity|].
    destruct Hstep as [s rsp ops lf _ Hok | s ms rest Hp _ | s ev rest Hp _
                      | s delay rest _ | s ev rest _ | s op rest Hp Hcap]; simpl.
    - destruct (handleResponse_sends _ _ _ _ Hok) as (ev & _ & [-> | ->]); eauto.
    - rewrite Hp in IH. destruct IH as [IH | [ev [IH | IH]]]; inversion IH; eauto.
    - rewrite Hp in IH. destruct IH as [IH | [ev0 [IH | IH]]]; inversion IH; eauto.
    - exact IH.
    - exact IH.
    - rewrite Hp in IH. destruct IH as [IH | [ev [IH | IH]]]; inversion IH; eauto. }
  pose proof (reachable_within_capacity options s Hs) as [Hr Hd].
  pose proof (retry_capacity_le options) as Hcap.
  split; [exact Hshape|]. split; [|lia].
  destruct Hshape as [-> | [ev [-> | ->]]]; simpl; lia.
Qed.

End Retry.

(** ** The sender loop *)

Section Sender.

Context {other : Type}.

Local Abbreviation Ev := (@Event other) (only parsing).

Implicit Types (ev : Ev) (toBeSent : list Ev) (polls : list (Poll other))
  (acts : list (@action other)).

(** X14: an iteration of the sender ends the loop exactly when it finds
    the retry queue empty and the primary queue closed, and only then does
    it signal [doneSending]; it sends nothing in that iteration and at
    most one event in any other, and it takes an event of the primary
    queue only when it has found the retry queue empty. *)
Theorem sendToLibhoney_iter_done (toBeSent : @recv other) (toBeResent : list Ev)
    (delaySending : list Z) :
  let it := sendToLibhoney_iter toBeSent toBeResent delaySending in
  (it_control it = Return <-> toBeResent = [] ∧ toBeSent = Closed)
  ∧ (DoneSending ∈ it_actions it <-> it_control it = Return)
  ∧ (it_control it = Return -> sent_events (it_actions it) = [])
  ∧ (length (sent_events (it_actions it)) <= 1)%nat
  ∧ (it_received it = true -> toBeResent = [] ∧ ∃ ev, toBeSent = Ready ev).
Proof.
  unfold sendToLibhoney_iter.
  destruct delaySending as [|delay delays]; destruct toBeResent as [|ev more];
    try destruct toBeSent as [first| |]; simpl;
    rewrite ?elem_of_cons, ?elem_of_nil;
    repeat split; intros; try lia;
    intuition (first [discriminate | congruence | eauto]).
Qed.

Lemma sent_events_sleeps acts :
  Forall (fun act => ∃ d, act = Sleep d) acts ->
  sent_events acts = [] ∧ DoneSending ∉ acts.
Proof.
  induction 1 as [|act acts [d ->] _ [IHsent IHdone]].
  - split; [reflexivity | apply not_elem_of_nil].
  - split; [exact IHsent|]. rewrite not_elem_of_cons. split; [discriminate | exact IHdone].
Qed.

(** The loop, one iteration unfolded. *)
Lemma sendToLibhoney_cons (p : Poll other) polls toBeSent :
  ∃ slept, Forall (fun act => ∃ d, act = Sleep d) slept
    ∧ sendToLibhoney (p :: polls) toBeSent
      = match poll_resent p with
        | ev :: _ =>
            (slept ++ Send (sendEvent ev) :: (sendToLibhoney polls toBeSent).1,
             (sendToLibhoney polls toBeSent).2)
        | [] =>
            if poll_ready p then
              match toBeSent with
              | ev :: rest =>
                  (slept ++ Send (sendEvent ev) :: (sendToLibhoney polls rest).1,
                   (sendToLibhoney polls rest).2)
              | [] => (slept ++ [DoneSending], Return)
              end
            else
              (slept ++ Sleep (100 * Millisecond) :: (sendToLibhoney polls toBeSent).1,
               (sendToLibhoney polls toBeSent).2)
        end.
Proof.
  exists (match poll_delay p with
          | delay :: _ => [Sleep (wrap_int64 (delay * Millisecond))]
          | [] => []
          end).
  split; [destruct (poll_delay p); repeat constructor; eauto|].
  cbn [sendToLibhoney]. unfold sendToLibhoney_iter.
  destruct (poll_delay p) as [|delay delays]; destruct (poll_resent p) as [|ev more];
    destruct (poll_ready p); destruct toBeSent as [|first rest]; simpl;
    try reflexivity;
    match goal with
    | |- context [sendToLibhoney polls ?l] =>
        destruct (sendToLibhoney polls l) as [acts c]; reflexivity
    end.
Qed.

Lemma sent_events_app acts (more : list (@action other)) :
  sent_events (acts ++ more) = sent_events acts ++ sent_events more.
Proof. apply omap_app. Qed.

(** X15: when the loop returns, every event of the primary queue has been
    handed to libhoney, in the order of the queue (retried events may be
    sent in between), and [doneSending] has been signalled once, as the
    last thing the loop does. *)
Theorem sendToLibhoney_on_return polls toBeSent acts :
  sendToLibhoney polls toBeSent = (acts, Return) ->
  (sendEvent <$> toBeSent) `sublist_of` sent_events acts
  ∧ ∃ before, acts = before ++ [DoneSending] ∧ DoneSending ∉ before.
Proof.
  revert toBeSent acts. induction polls as [|p polls IH]; intros toBeSent acts Hrun.
  - discriminate Hrun.
  - destruct (sendToLibhoney_cons p polls toBeSent) as (slept & Hslept & Heq).
    rewrite Heq in Hrun. clear Heq.
    destruct (sent_events_sleeps slept Hslept) as [Hnone Hnodone].
    assert (Hstep : ∀ (act : @action other) acts' before,
              act ≠ DoneSending -> acts' = before ++ [DoneSending] -> DoneSending ∉ before ->
              ∃ before', slept ++ act :: acts' = before' ++ [DoneSending]
                         ∧ DoneSending ∉ before').
    { intros act acts' before Hact -> Hbefore. exists (slept ++ act :: before).
      split; [rewrite <- app_assoc; reflexivity|].
      rewrite not_elem_of_app, not_elem_of_cons. auto. }
    destruct (poll_resent p) as [|ev more]; [destruct (poll_ready p)|].
    + destruct toBeSent as [|first rest].
      * inversion Hrun; subst. rewrite sent_events_app, Hnone. simpl.
        split; [constructor|]. exists slept. auto.
      * destruct (sendToLibhoney polls rest) as [acts' c] eqn:Hrest.
        inversion Hrun; subst. destruct (IH rest acts' Hrest) as (Hsub & before & Hb & Hd).
        rewrite sent_events_app, Hnone. cbn [app sent_events omap list_omap].
        rewrite fmap_cons.
        split; [apply sublist_skip, Hsub|].
        apply (Hstep _ _ before); [discriminate | exact Hb | exact Hd].
    + destruct (sendToLibhoney polls toBeSent) as [acts' c] eqn:Hrest.
      inversion Hrun; subst. destruct (IH toBeSent acts' Hrest) as (Hsub & before & Hb & Hd).
      rewrite sent_events_app, Hnone. simpl.
      split; [exact Hsub|].
      apply (Hstep _ _ before); [discriminate | exact Hb | exact Hd].
    + destruct (sendToLibhoney polls toBeSent) as [acts' c] eqn:Hrest.
      inversion Hrun; subst. destruct (IH toBeSent acts' Hrest) as (Hsub & before & Hb & Hd).
      rewrite sent_events_app, Hnone. simpl.
      split; [apply sublist_cons, Hsub|].
      apply (Hstep _ _ before); [discriminate | exact Hb | exact Hd].
Qed.

(** X16: as long as no iteration finds an event in the retry queue, the
    loop sends the events of the primary queue and nothing else, in
    order and each once: what it has sent is always a prefix of the
    queue, and the whole queue when it has returned. *)
Theorem sendToLibhoney_in_order polls toBeSent :
  Forall (fun p => poll_resent p = []) polls ->
  sent_events (sendToLibhoney polls toBeSent).1 `prefix_of` (sendEvent <$> toBeSent)
  ∧ ((sendToLibhoney polls toBeSent).2 = Return ->
     sent_events (sendToLibhoney polls toBeSent).1 = sendEvent <$> toBeSent).
Proof.
  intros Hquiet. revert toBeSent.
  induction Hquiet as [|p polls Hp _ IH]; intros toBeSent.
  - simpl. split; [apply prefix_nil | discriminate].
  - destruct (sendToLibhoney_cons p polls toBeSent) as (slept & Hslept & ->).
    destruct (sent_events_sleeps slept Hslept) as [Hnone _].
    rewrite Hp. destruct (poll_ready p).
    + destruct toBeSent as [|first rest]; cbn [fst snd].
      * rewrite sent_events_app, Hnone. simpl. split; [apply prefix_nil | reflexivity].
      * destruct (IH rest) as [Hpre Hall].
        rewrite sent_events_app, Hnone. cbn [app sent_events omap list_omap].
        rewrite fmap_cons.
        split; [apply prefix_cons, Hpre|]. intros Hret.
        f_equal. apply Hall, Hret.
    + cbn [fst snd]. destruct (IH toBeSent) as [Hpre Hall].
      rewrite sent_events_app, Hnone. simpl. split; assumption.
Qed.

(** X17: the loop returns once the primary queue has been found ready,
    with the retry queue empty, more often than it holds events: none of
    its sleeps and none of its retries keeps it from draining the queue
    and seeing it closed. *)
Theorem sendToLibhoney_returns polls toBeSent :
  (length toBeSent < length (List.filter poll_primary polls))%nat ->
  (sendToLibhoney polls toBeSent).2 = Return.
Proof.
  revert toBeSent. induction polls as [|p polls IH]; intros toBeSent Hfair.
  - simpl in Hfair. lia.
  - destruct (sendToLibhoney_cons p polls toBeSent) as (slept & _ & ->).
    simpl in Hfair. unfold poll_primary in Hfair at 1.
    destruct (poll_resent p) as [|ev more]; [destruct (poll_ready p)|]; simpl in *.
    + destruct toBeSent as [|first rest]; [reflexivity|].
      simpl in *. apply IH. lia.
    + apply IH. exact Hfair.
    + rewrite andb_false_r in Hfair. apply IH. exact Hfair.
Qed.

End Sender.

(** ** Start-up *)

(** X18: the parser and the option group that [getParserAndOptions]
    returns belong together: either both are nil, or the parser comes
    with the option group of its own dialect; [run] therefore never
    initialises a parser with nil options or with another parser's. *)
Theorem getParserAndOptions_pairing (options : GlobalOptions) :
  ((getParserAndOptions options).1 = None <-> (getParserAndOptions options).2 = None)
  ∧ ∀ parser opts, run_getParser options = Proceed (parser, opts) ->
      (parser, opts) ∈ [ (NginxParser, Some OptNginx); (HtjsonParser, Some OptJSON);
                         (MongodbParser, Some OptMongo); (MysqlParser, Some OptMySQL) ].
Proof.
  unfold run_getParser.
  pose proof (getParserAndOptions_cases options) as Hc. cbv zeta in Hc. rewrite Hc. clear Hc.
  repeat case_decide; simpl;
    (split; [split; intros Hnil; first [discriminate Hnil | reflexivity]|]);
    intros parser opts Hrun; inversion Hrun; subst;
    rewrite !elem_of_cons; tauto.
Qed.

Lemma wrap_int64_small (x : Z) : - 2 ^ 63 <= x < 2 ^ 63 -> wrap_int64 x = x.
Proof. intros Hx. unfold wrap_int64. rewrite Z.mod_small by lia. lia. Qed.


(** X20: [logStats] returns at once, without ever logging, when the
    interval is 0; for an interval of up to 9223372036 seconds it makes a
    ticker of exactly that many seconds (the duration does not overflow,
    so [time.NewTicker] does not panic) and logs once per tick. *)
Theorem logStats_period (interval : Z) (ticks : nat) :
  0 <= interval <= 9223372036 ->
  logStats interval ticks
  = if interval =? 0 then Ok (None, 0%nat) else Ok (Some (interval * Second), ticks).
Proof.
  intros Hi. unfold logStats.
  destruct (Z.eqb_spec interval 0) as [_|Hne]; [reflexivity|].
  assert (Hs : Second = 1000000000) by reflexivity.
  rewrite (wrap_int64_small interval) by lia.
  rewrite wrap_int64_small by (rewrite Hs; lia).
  destruct (Z.leb_spec (Second * interval) 0) as [Hle|_]; [rewrite Hs in Hle; lia|].
  rewrite Z.mul_comm. reflexivity.
Qed.

Section Startup.

Context {other : Type} (fmt_other : other -> string).

Implicit Types (toBeSent : list (@Event other)).




End Startup.

(** *** The further properties on the sample inputs *)

Lemma sample_add_pairs :
  Forall2 (fun field kv => SplitN2 field "=" = [kv.1; kv.2])
          (AddFields sample_options) [("note", "k=v")].
Proof. simpl. constructor; [reflexivity | constructor]. Qed.

Lemma sample_no_key (f : string) :
  f ≠ "note"%string -> f ∉ [("note", "k=v")].*1.
Proof.
  intros Hf Hin. simpl in Hin. apply list_elem_of_singleton in Hin. contradiction.
Qed.

(** X1 on the sample chain. *)
Lemma modifyEventContents_untouched_sample :
  Forall2 (fun field kv => SplitN2 field "=" = [kv.1; kv.2])
          (AddFields sample_options) [("note", "k=v")]
  ∧ ∃ out, modifyEventContents fmt_none [sample_event] sample_options = Proceed out
      ∧ length out = length [sample_event]
      ∧ ∀ (i : nat) ev, [sample_event] !! i = Some ev ->
          ∃ ev', out !! i = Some ev'
            ∧ Timestamp ev' = Timestamp ev
            ∧ ∀ k : string,
                k ∉ DropFields sample_options -> k ∉ ScrubFields sample_options ->
                k ∉ [("note", "k=v")].*1 ->
                Data ev' !! k = Data ev !! k.
Proof.
  split; [exact sample_add_pairs|].
  apply (modifyEventContents_untouched fmt_none [sample_event] sample_options).
  exact sample_add_pairs.
Defined.

(** X2: the field secret of the sample event is dropped. *)
Lemma dropped_field_absent_sample :
  (("secret" : string) ∈ DropFields sample_options)
  ∧ (("secret" : string) ∉ [("note", "k=v")].*1)
  ∧ ∃ out, modifyEventContents fmt_none [sample_event] sample_options = Proceed out
      ∧ ∀ ev', ev' ∈ out -> Data ev' !! "secret" = None.
Proof.
  split; [apply list_elem_of_singleton; reflexivity|].
  split; [apply sample_no_key; discriminate|].
  apply (dropped_field_absent fmt_none [sample_event] sample_options [("note", "k=v")]).
  - exact sample_add_pairs.
  - apply list_elem_of_singleton. reflexivity.
  - apply sample_no_key. discriminate.
Defined.

(** X3: the sample chain adds note. *)
Lemma last_add_wins_sample :
  last_value "note" [("note", "k=v")] = Some "k=v"%string
  ∧ ∃ out, modifyEventContents fmt_none [sample_event] sample_options = Proceed out
      ∧ ∀ ev', ev' ∈ out -> Data ev' !! "note" = Some (VString "k=v").
Proof.
  split; [reflexivity|].
  apply (last_add_wins fmt_none [sample_event] sample_options [("note", "k=v")]).
  - exact sample_add_pairs.
  - reflexivity.
Defined.

(** X4: the field email of the sample event is scrubbed. *)
Lemma scrubbed_field_digest_sample :
  (("email" : string) ∈ ScrubFields sample_options)
  ∧ (("email" : string) ∉ [("note", "k=v")].*1)
  ∧ ∃ out, modifyEventContents fmt_none [sample_event] sample_options = Proceed out
      ∧ ∀ ev', ev' ∈ out ->
          Data ev' !! "email" = None
          ∨ ∃ h, Data ev' !! "email" = Some (VString h) ∧ is_hex_digest h.
Proof.
  split; [apply list_elem_of_singleton; reflexivity|].
  split; [apply sample_no_key; discriminate|].
  apply (scrubbed_field_digest fmt_none [sample_event] sample_options [("note", "k=v")]).
  - exact sample_add_pairs.
  - apply list_elem_of_singleton. reflexivity.
  - apply sample_no_key. discriminate.
Defined.

(** X5 on the email of the sample event. *)
Lemma scrubEventField_digest_sample :
  [sample_event] !! 0%nat = Some sample_event
  ∧ Data sample_event !! "email" = Some (VString "a@b")
  ∧ ∃ ev', scrubEventField fmt_none "email" [sample_event] !! 0%nat = Some ev'
      ∧ Data ev' !! "email" = Some (VString (hex_sha256 (Sprintf_v fmt_none (VString "a@b"))))
      ∧ is_hex_digest (hex_sha256 (Sprintf_v fmt_none (VString "a@b"))).
Proof.
  split; [reflexivity|]. split; [reflexivity|].
  apply (scrubEventField_digest fmt_none [sample_event] 0%nat sample_event "email");
    reflexivity.
Defined.

(** X9 on the rate-limited sample response. *)
Lemma sendEvent_response_round_trip_sample :
  Metadata sample_retry = lhMetadata (sendEvent sample_event)
  ∧ ∃ ops lf, handleResponse sample_options sample_retry = Ok (ops, lf)
      ∧ lf_timestamp lf = lhTimestamp (sendEvent sample_event)
      ∧ lf_retry_send lf = retryable sample_options sample_retry
      ∧ resent_events ops
        = (if retryable sample_options sample_retry then [sample_event] else [])
      ∧ ∀ again, again ∈ resent_events ops -> sendEvent again = sendEvent sample_event.
Proof.
  split; [reflexivity|].
  apply (sendEvent_response_round_trip sample_options sample_event sample_retry).
  reflexivity.
Defined.

Lemma sample_responses_carry_events :
  Forall (fun rsp => ∃ ev, Metadata rsp = IEvent ev)
         [sample_retry; response_to 200 (IEvent sample_event)].
Proof. repeat constructor; exists sample_event; reflexivity. Qed.


(** X11: two good responses, then one without an event. *)
Lemma handleResponses_stops_at_orphan_sample :
  Forall (fun rsp => ∃ ev, Metadata rsp = IEvent ev)
         [sample_retry; response_to 200 (IEvent sample_event)]
  ∧ (∀ ev, Metadata sample_orphan ≠ IEvent ev)
  ∧ ∃ ops lfs,
      handleResponses [sample_retry; response_to 200 (IEvent sample_event)] sample_options
      = (ops, lfs, Ok tt)
      ∧ length lfs = length [sample_retry; response_to 200 (IEvent sample_event)]
      ∧ handleResponses ([sample_retry; response_to 200 (IEvent sample_event)]
                           ++ sample_orphan :: [sample_retry]) sample_options
        = (ops, lfs, Panic).
Proof.
  split; [exact sample_responses_carry_events|].
  split; [intros ev Hev; discriminate Hev|].
  apply (handleResponses_stops_at_orphan _ sample_orphan [sample_retry] sample_options
           sample_responses_carry_events).
  intros ev Hev. discriminate Hev.
Defined.

(** X12 on the sample options without back-off. *)
Lemma no_backoff_no_retry_sample :
  BackOff quiet_options = false
  ∧ reachable quiet_options (@sys_init Empty_set)
  ∧ @sys_init Empty_set = sys_init.
Proof.
  split; [reflexivity|]. split; [apply reach_init|].
  apply (no_backoff_no_retry quiet_options sys_init); [reflexivity | apply reach_init].
Defined.

(** X13 with both buffers full. *)
Lemma retry_in_flight_bounded_sample :
  0 < NumSenders sample_options
  ∧ reachable sample_options sample_full
  ∧ (h_pending sample_full = []
     ∨ ∃ ev, h_pending sample_full = [SendDelay 100; SendResent ev]
             ∨ h_pending sample_full = [SendResent ev])
  ∧ Z.of_nat (length (q_resent sample_full) + length (resent_events (h_pending sample_full)))
    <= 2 * NumSenders sample_options + 1
  ∧ Z.of_nat (length (q_delay sample_full)) <= 2 * NumSenders sample_options.
Proof.
  split; [reflexivity|]. split; [exact sample_full_reachable|].
  apply (retry_in_flight_bounded sample_options sample_full);
    [reflexivity | exact sample_full_reachable].
Defined.

(** X15: a retry first, then the primary event, then the close. *)
Lemma sendToLibhoney_on_return_sample :
  sendToLibhoney [poll_retry; poll_quiet; poll_quiet] [sample_event]
  = ((sendToLibhoney [poll_retry; poll_quiet; poll_quiet] [sample_event]).1, Return)
  ∧ (sendEvent <$> [sample_event])
      `sublist_of` sent_events
                     (sendToLibhoney [poll_retry; poll_quiet; poll_quiet] [sample_event]).1
  ∧ ∃ before,
      (sendToLibhoney [poll_retry; poll_quiet; poll_quiet] [sample_event]).1
      = before ++ [DoneSending]
      ∧ DoneSending ∉ before.
Proof.
  split; [reflexivity|].
  apply (sendToLibhoney_on_return [poll_retry; poll_quiet; poll_quiet] [sample_event]).
  reflexivity.
Defined.

(** X16 with no retry. *)
Lemma sendToLibhoney_in_order_sample :
  Forall (fun p => poll_resent p = []) [poll_quiet; poll_quiet]
  ∧ sent_events (sendToLibhoney [poll_quiet; poll_quiet] [sample_event]).1
      `prefix_of` (sendEvent <$> [sample_event])
  ∧ ((sendToLibhoney [poll_quiet; poll_quiet] [sample_event]).2 = Return ->
     sent_events (sendToLibhoney [poll_quiet; poll_quiet] [sample_event]).1
     = sendEvent <$> [sample_event]).
Proof.
  assert (Hquiet : Forall (fun p : Poll Empty_set => poll_resent p = [])
                     [poll_quiet; poll_quiet])
    by (repeat constructor).
  split; [exact Hquiet|].
  apply (sendToLibhoney_in_order [poll_quiet; poll_quiet] [sample_event] Hquiet).
Defined.

(** X17: two quiet polls for one event. *)
Lemma sendToLibhoney_returns_sample :
  (length [sample_event] < length (List.filter poll_primary [poll_retry; poll_quiet; poll_quiet]))%nat
  ∧ (sendToLibhoney [poll_retry; poll_quiet; poll_quiet] [sample_event]).2 = Return.
Proof.
  assert (Hfair : (length [sample_event]
                   < length (List.filter poll_primary [poll_retry; poll_quiet; poll_quiet]))%nat)
    by (simpl; lia).
  split; [exact Hfair|].
  apply (sendToLibhoney_returns [poll_retry; poll_quiet; poll_quiet] [sample_event] Hfair).
Defined.


(** X20 with a report every minute. *)
Lemma logStats_period_sample :
  0 <= 60 <= 9223372036
  ∧ logStats 60 3 = (if 60 =? 0 then Ok (None, 0%nat) else Ok (Some (60 * Second), 3%nat)).
Proof.
  assert (Hi : 0 <= 60 <= 9223372036) by lia.
  split; [exact Hi|]. apply (logStats_period 60 3 Hi).
Defined.

(** The overflow that X20 excludes: one second more and the duration is
    negative, on which [time.NewTicker] panics. *)
Example logStats_overflow : logStats 9223372037 1 = Panic.
Proof. reflexivity. Qed.

(** X19 at the boundary: [2 ^ 63] senders would make the channels
    unbuffered. *)
Example retry_capacity_wraps :
  retry_capacity
    {| Reqs := Reqs sample_options; APIHost := APIHost sample_options;
       SampleRate := 1; NumSenders := 2 ^ 63; BackOff := true; StatusInterval := 0;
       DropFields := []; ScrubFields := []; AddFields := [] |} = 0.
Proof. reflexivity. Qed.
